(** * zkinterface-bellman: a shallow embedding of [src/import.rs] and
    [src/zkif_backend.rs].

    The development follows the two Rust files:
    - the field codec [le_to_fr] and the encoding [into_repr().write_le];
    - the linear-combination translator [terms_to_lc] and [enforce];
    - the foreign gadget protocol [call_gadget];
    - the circuit synthesis driver [ZKIFCircuit::generate_constraints];
    - the artifact orchestrator [zkif_backend].

    Rust's [Result] and panics are modelled by the [outcome] type below; the
    state threaded through the code (the constraint system, the file system)
    is passed explicitly. *)

From Stdlib Require Import ZArith Lia Strings.Byte Strings.Ascii.
From stdpp Require Import base gmap list strings.

Open Scope Z_scope.

(* ------------------------------------------------------------------ *)
(** ** Bytes as little-endian integers *)

(** A byte as an integer in [0, 256). *)
Definition byte_to_Z (b : byte) : Z := Z.of_N (Byte.to_N b).

(** The byte holding [z mod 256]. *)
Definition byte_of_Z (z : Z) : byte :=
  match Byte.of_N (Z.to_N (z mod 256)) with
  | Some b => b
  | None => x00
  end.

(** Unsigned little-endian value of a byte buffer. *)
Fixpoint le_bytes_to_Z (bs : list byte) : Z :=
  match bs with
  | [] => 0
  | b :: bs' => byte_to_Z b + 256 * le_bytes_to_Z bs'
  end.

(** [n] little-endian bytes of [z] (the low [8 n] bits). *)
Fixpoint Z_to_le_bytes (n : nat) (z : Z) : list byte :=
  match n with
  | O => []
  | S n' => byte_of_Z z :: Z_to_le_bytes n' (z / 256)
  end.

(* ------------------------------------------------------------------ *)
(** ** The prime field (trait [algebra::PrimeField]) *)

(** The generic parameter [F: PrimeField] of the Rust code: the modulus and
    [F::size_in_bits()], the bit length of the modulus ([MODULUS_BITS] of
    the field parameters). A field element is represented by its canonical
    representative, an integer in [0, modulus). *)
Class PrimeField := {
  modulus : Z;
  size_in_bits : Z;
  modulus_gt_1 : 1 < modulus;
  modulus_bits : 2 ^ (size_in_bits - 1) <= modulus < 2 ^ size_in_bits
}.

Section Field.
Context `{PF : PrimeField}.

(** A valid field element. *)
Definition valid_fr (x : Z) : Prop := 0 <= x < modulus.

(** [F::zero()]. *)
Definition fr_zero : Z := 0.

(** [F::into_repr()]: the canonical representative. *)
Definition into_repr (x : Z) : Z := x.

(** [F::from_repr(repr)] of the algebra crate ([Fp256::from_repr] and its
    siblings): the representative when it is valid ([repr < modulus]),
    [F::zero()] otherwise. It returns a field element, not a [Result]. *)
Definition from_repr (r : Z) : Z :=
  if (0 <=? r) && (r <? modulus) then r else fr_zero.

(** [(F::size_in_bits() + 63) / 64]: the number of 64-bit limbs. *)
Definition words : Z := (size_in_bits + 63) / 64.

(** [le_to_fr] (import.rs, lines 19-29). [bytes_le.resize(8 * words, 0)]
    pads with zeros or truncates (stdpp's [resize] does both);
    [FromBytes::read] of a buffer of exactly [8 * words] bytes reads the
    limbs little-endian and cannot fail, so its [unwrap] never fires. *)
Definition le_to_fr (bytes_le : list byte) : Z :=
  match bytes_le with
  | [] => fr_zero
  | _ =>
      let bytes_le := resize (Z.to_nat (8 * words)) x00 bytes_le in
      from_repr (le_bytes_to_Z bytes_le)
  end.

(** [x.into_repr().write_le(&mut values)] (import.rs, line 66): the
    [words] limbs of the representative, each written as 8 little-endian
    bytes. *)
Definition fr_to_le (x : Z) : list byte :=
  Z_to_le_bytes (Z.to_nat (8 * words)) (into_repr x).

End Field.

(** The scalar field of BLS12-381, the field used by [zkif_backend]. *)
#[export] Instance bls12_381_fr : PrimeField := {
  modulus :=
    52435875175126190479447740508185965837690552500527637822603658699938581184513;
  size_in_bits := 255;
  modulus_gt_1 := ltac:(reflexivity);
  modulus_bits := ltac:(split; [discriminate | reflexivity])
}.

Example le_to_fr_one : le_to_fr [x01] = 1.
Proof. reflexivity. Qed.

Example le_to_fr_roundtrip_258 : le_to_fr (fr_to_le 258) = 258.
Proof. reflexivity. Qed.

(* ------------------------------------------------------------------ *)
(** ** Errors, panics and the synthesis state *)

(** [r1cs_core::SynthesisError]. [IoError] is what [?] makes of an
    [std::io::Error] ([impl From<io::Error> for SynthesisError]). *)
Inductive SynthesisError :=
  | AssignmentMissing
  | DivisionByZero
  | Unsatisfiable
  | PolynomialDegreeTooLarge
  | UnexpectedIdentity
  | IoError
  | MalformedVerifyingKey
  | UnconstrainedVariable.

(** [std::result::Result]. *)
Inductive Result (T E : Type) := Ok (t : T) | Err (e : E).
Arguments Ok {T E} t.
Arguments Err {T E} e.

(** What a Rust function does: return a value, return [Err], or panic (an
    [unwrap] on [None], a failed index). *)
Inductive outcome (A : Type) :=
  | Ret (a : A)
  | Fail (e : SynthesisError)
  | Panic.
Arguments Ret {A} a.
Arguments Fail {A} e.
Arguments Panic {A}.

(** [Option::unwrap]. *)
Definition unwrap {A} (o : option A) : outcome A :=
  match o with Some a => Ret a | None => Panic end.

(** [r1cs_core::Variable] ([Variable] is a Rocq keyword): an index into the public inputs or into the
    auxiliary (private) variables; [CS::one()] is input 0. *)
Inductive Var := Input (n : nat) | Aux (n : nat).

Definition cs_one : Var := Input 0.

(** [LinearCombination<F>]: the (variable, coefficient) pairs in the
    order they were added. *)
Definition LinearCombination := list (Var * Z).

(** Key generation runs the synthesizer without values ([Setup]); proving
    runs it with them ([Proving]). *)
Inductive cs_mode := Setup | Proving.

(** A [ConstraintSystem<F>]: the public inputs (input 0 is the constant
    one), the auxiliary variables with their assigned values ([None] in
    [Setup] mode, where the value closures are not run) and the
    constraints, in the order they were enforced. *)
Record ConstraintSystem := mkCS {
  cs_mode_of : cs_mode;
  cs_inputs : list (option Z);
  cs_aux : list (option Z);
  cs_constraints : list (LinearCombination * LinearCombination * LinearCombination)
}.

(** Operations on an id-to-variable table ([HashMap<u64, Variable>]):
    [Bind] is an [insert], [Resolve] a [get]. *)
Inductive table_event := Bind (id : N) (v : Var) | Resolve (id : N).

(** The synthesis state: the constraint system the code mutates through
    [&mut CS], and the log of table operations in the order they run. *)
Record state := mkState {
  st_cs : ConstraintSystem;
  st_trace : list table_event
}.

Definition M (A : Type) : Type := state -> outcome A * state.

Definition mret {A} (a : A) : M A := fun s => (Ret a, s).

Definition mbind {A B} (m : M A) (k : A -> M B) : M B := fun s =>
  match m s with
  | (Ret a, s') => k a s'
  | (Fail e, s') => (Fail e, s')
  | (Panic, s') => (Panic, s')
  end.

Definition mlift {A} (o : outcome A) : M A := fun s => (o, s).

Notation "'let*' x ':=' m 'in' k" := (mbind m (fun x => k))
  (at level 200, x name, m at level 100, k at level 200).
Notation "'let*' ' p ':=' m 'in' k" :=
  (mbind m (fun x => match x with p => k end))
  (at level 200, p pattern, m at level 100, k at level 200).

(** A [for] loop threading an accumulator. *)
Fixpoint mfold_left {A B} (f : A -> B -> M A) (l : list B) (a : A) : M A :=
  match l with
  | [] => mret a
  | x :: l' => mbind (f a x) (mfold_left f l')
  end.

Definition log (ev : table_event) : M unit := fun s =>
  (Ret tt, mkState (st_cs s) (st_trace s ++ [ev])).

Definition get_mode : M cs_mode := fun s => (Ret (cs_mode_of (st_cs s)), s).

(* ------------------------------------------------------------------ *)
(** ** The constraint system's operations *)

(** [cs.alloc(|| name, || Ok(v))]: a new auxiliary variable; the value
    closure is run only when proving. *)
Definition cs_alloc (v : Z) : M Var := fun s =>
  let cs := st_cs s in
  let val := match cs_mode_of cs with Setup => None | Proving => Some v end in
  (Ret (Aux (length (cs_aux cs))),
   mkState (mkCS (cs_mode_of cs) (cs_inputs cs) (cs_aux cs ++ [val])
                 (cs_constraints cs))
           (st_trace s)).

(** [cs.alloc_input(|| name, || Ok(v))]: a new public input. *)
Definition cs_alloc_input (v : Z) : M Var := fun s =>
  let cs := st_cs s in
  let val := match cs_mode_of cs with Setup => None | Proving => Some v end in
  (Ret (Input (length (cs_inputs cs))),
   mkState (mkCS (cs_mode_of cs) (cs_inputs cs ++ [val]) (cs_aux cs)
                 (cs_constraints cs))
           (st_trace s)).

(** [cs.enforce(|| name, a, b, c)]: the three closures build the linear
    combinations, then the constraint is recorded. A panic inside a closure
    happens before anything is recorded. *)
Definition cs_enforce (a b c : M LinearCombination) : M unit :=
  let* la := a in
  let* lb := b in
  let* lc := c in
  fun s =>
    let cs := st_cs s in
    (Ret tt,
     mkState (mkCS (cs_mode_of cs) (cs_inputs cs) (cs_aux cs)
                   (cs_constraints cs ++ [(la, lb, lc)]))
             (st_trace s)).

(* ------------------------------------------------------------------ *)
(** ** The id-to-variable table ([HashMap<u64, Variable>]) *)

(** [id_to_var.insert(id, v)]: replaces any earlier entry for [id]. *)
Definition tbl_insert (t : gmap N Var) (id : N) (v : Var)
  : M (gmap N Var) :=
  let* _ := log (Bind id v) in
  mret (<[id := v]> t).

(** [vars.get(&id).unwrap().clone()]: panics on an unbound id. *)
Definition tbl_get (t : gmap N Var) (id : N) : M Var :=
  let* _ := log (Resolve id) in
  mlift (unwrap (t !! id)).

(* ------------------------------------------------------------------ *)
(** ** zkInterface messages (the parsed view of [zkinterface::reading]) *)

(** [reading::Variable]: an id and its little-endian value bytes (empty
    when the message carries no value). *)
Record WireVariable := { var_id : N; var_value : list byte }.

(** [reading::Term]. *)
Record Term := { term_id : N; term_value : list byte }.

(** [reading::Constraint]: [a * b = c]. *)
Record Constraint := { con_a : list Term; con_b : list Term; con_c : list Term }.

(** The flags of a [Circuit] message. *)
Record CircuitHeader := {
  hdr_r1cs_generation : bool;
  hdr_witness_generation : bool
}.

(** [reading::Messages] as the code reads it: the circuit messages, the
    results of [connection_variables()] and [private_variables()], and the
    constraints of [iter_constraints()]. *)
Record Messages := {
  msg_circuits : list CircuitHeader;
  msg_connection_variables : option (list WireVariable);
  msg_private_variables : option (list WireVariable);
  msg_constraints : list Constraint
}.

Definition last_circuit (m : Messages) : option CircuitHeader :=
  last (msg_circuits m).

(** [writing::VariablesOwned] and [writing::CircuitOwned]. *)
Record VariablesOwned := {
  variable_ids : list N;
  values : option (list byte)
}.

Record CircuitOwned := {
  connections : VariablesOwned;
  free_variable_id : N;
  r1cs_generation : bool;
  field_maximum : option (list byte)
}.

(** [FpGadget<F>]: an allocated variable and its value, known only when
    proving. *)
Record FpGadget := { fp_value : option Z; fp_variable : Var }.

(** [first..last] as a Rust range [(first..last).collect()]. *)
Definition range_N (first last : N) : list N :=
  map N.of_nat (seq (N.to_nat first) (N.to_nat (last - first))).

Section Synthesis.
Context `{PF : PrimeField}.

(* ------------------------------------------------------------------ *)
(** ** Linear-combination translator and constraint enforcer *)

(** [terms_to_lc] (import.rs, lines 32-40). *)
Definition terms_to_lc (vars : gmap N Var) (terms : list Term)
  : M LinearCombination :=
  mfold_left (fun lc term =>
      let coeff := le_to_fr (term_value term) in
      let* var := tbl_get vars (term_id term) in
      mret (lc ++ [(var, coeff)]))
    terms [].

(** [enforce] (import.rs, lines 43-52). *)
Definition enforce (vars : gmap N Var) (constraint : Constraint) : M unit :=
  cs_enforce (terms_to_lc vars (con_a constraint))
             (terms_to_lc vars (con_b constraint))
             (terms_to_lc vars (con_c constraint)).

(** [for (i, constraint) in messages.iter_constraints().enumerate() {
    enforce(..) }]. *)
Definition enforce_all (vars : gmap N Var) (constraints : list Constraint)
  : M unit :=
  mfold_left (fun _ c => enforce vars c) constraints tt.

(** [for var in private_vars { let v = cs.alloc(..)?; id_to_var.insert(var.id, v); }]
    (import.rs, lines 123-127; zkif_backend.rs, lines 42-46). *)
Definition alloc_privates (id_to_var : gmap N Var) (private_vars : list WireVariable)
  : M (gmap N Var) :=
  mfold_left (fun t var =>
      let* v := cs_alloc (le_to_fr (var_value var)) in
      tbl_insert t (var_id var) v)
    private_vars id_to_var.

(* ------------------------------------------------------------------ *)
(** ** The foreign gadget call ([call_gadget], import.rs, lines 55-135) *)

(** [FpGadget::alloc(cs, || Ok(v))]: the recorded value is the one the
    allocation closure saw, so it is [None] when the closure is not run
    (key generation). *)
Definition fp_alloc (v : Z) : M FpGadget :=
  let* mode := get_mode in
  let* x := cs_alloc v in
  mret {| fp_value := match mode with Setup => None | Proving => Some v end;
          fp_variable := x |}.

(** [inputs.len() > 0 && inputs[0].get_value().is_some()] (line 60). *)
Definition witness_generation_of (inputs : list FpGadget) : bool :=
  match inputs with
  | [] => false
  | i0 :: _ => bool_decide (is_Some (fp_value i0))
  end.

(** [for i in inputs { i.get_value().unwrap().into_repr().write_le(&mut values)?; }]
    (lines 64-67): panics at the first input without a value. *)
Fixpoint serialize_values (inputs : list FpGadget) : outcome (list byte) :=
  match inputs with
  | [] => Ret []
  | i :: rest =>
      match fp_value i with
      | None => Panic
      | Some v =>
          match serialize_values rest with
          | Ret bs => Ret (fr_to_le v ++ bs)
          | Fail e => Fail e
          | Panic => Panic
          end
      end
  end.

(** Lines 60-85: the mode, the serialized values and the call message. *)
Definition build_call (inputs : list FpGadget) : outcome CircuitOwned :=
  let witness_generation := witness_generation_of inputs in
  let values :=
    if witness_generation then
      match serialize_values inputs with
      | Ret bs => Ret (Some bs)
      | Fail e => Fail e
      | Panic => Panic
      end
    else Ret None in
  match values with
  | Fail e => Fail e
  | Panic => Panic
  | Ret values =>
      let first_input_id := 1%N in
      let free_variable_id := (first_input_id + N.of_nat (length inputs))%N in
      Ret {| connections := {| variable_ids := range_N first_input_id free_variable_id;
                               values := values |};
             free_variable_id := free_variable_id;
             r1cs_generation := true;
             field_maximum := None |}
  end.

(** [for i in 0..inputs.len() { id_to_var.insert(call.connections.variable_ids[i],
    inputs[i].get_variable()); }] (lines 99-101); an index out of range
    would panic. *)
Definition seed_inputs (id_to_var : gmap N Var) (ids : list N)
    (inputs : list FpGadget) : M (gmap N Var) :=
  mfold_left (fun t i =>
      match ids !! i, inputs !! i with
      | Some id, Some inp => tbl_insert t id (fp_variable inp)
      | _, _ => mlift Panic
      end)
    (seq 0 (length inputs)) id_to_var.

(** Lines 94-101: a fresh table, id 0 bound to [CS::one()], the reserved
    input ids bound to the caller's input variables. *)
Definition seed_table (ids : list N) (inputs : list FpGadget) : M (gmap N Var) :=
  let* id_to_var := tbl_insert ∅ 0 cs_one in
  seed_inputs id_to_var ids inputs.

(** Lines 104-118: allocate the declared outputs in order, bind them, and
    collect them. *)
Definition alloc_outputs (id_to_var : gmap N Var)
    (output_vars : option (list WireVariable))
  : M (gmap N Var * list FpGadget) :=
  match output_vars with
  | None => mret (id_to_var, [])
  | Some output_vars =>
      mfold_left (fun '(t, outputs) var =>
          let* num := fp_alloc (le_to_fr (var_value var)) in
          let* t := tbl_insert t (var_id var) (fp_variable num) in
          mret (t, outputs ++ [num]))
        output_vars (id_to_var, [])
  end.

(** Lines 94-134: everything after the external call returned. *)
Definition splice (inputs : list FpGadget) (call : CircuitOwned)
    (messages : Messages) : M (list FpGadget) :=
  let* id_to_var := seed_table (variable_ids (connections call)) inputs in
  let* '(id_to_var, outputs) := alloc_outputs id_to_var (msg_connection_variables messages) in
  let* private_vars := mlift (unwrap (msg_private_variables messages)) in
  let* id_to_var := alloc_privates id_to_var private_vars in
  let* _ := enforce_all id_to_var (msg_constraints messages) in
  mret outputs.

(** [call_gadget]. [circuit_write] is [CircuitOwned::write] into a [Vec]
    (it cannot fail); [exec_fn] is the external gadget. A failed call is
    mapped to [SynthesisError::Unsatisfiable] (line 92). *)
Definition call_gadget (circuit_write : CircuitOwned -> list byte)
    (inputs : list FpGadget) (exec_fn : list byte -> Result Messages string)
  : M (list FpGadget) :=
  let* call := mlift (build_call inputs) in
  let call_buf := circuit_write call in
  let* messages :=
    mlift (match exec_fn call_buf with
           | Ok m => Ret m
           | Err _ => Fail Unsatisfiable
           end) in
  splice inputs call messages.

(* ------------------------------------------------------------------ *)
(** ** The circuit synthesis driver
       ([ZKIFCircuit::generate_constraints], zkif_backend.rs, lines 24-53) *)

(** Lines 33-37: each connection variable becomes a public input bound to
    its wire id. (The source writes [id_to_var.insert(var.id, var)] after
    shadowing [var] with the allocated variable; the id meant, and the only
    one there is, is the wire variable's.) *)
Definition alloc_publics (id_to_var : gmap N Var) (public_vars : list WireVariable)
  : M (gmap N Var) :=
  mfold_left (fun t var =>
      let* v := cs_alloc_input (le_to_fr (var_value var)) in
      tbl_insert t (var_id var) v)
    public_vars id_to_var.

(** The table built before the constraints are enforced. *)
Definition bind_declared (messages : Messages) : M (gmap N Var) :=
  let* id_to_var := tbl_insert ∅ 0 cs_one in
  let* public_vars := mlift (unwrap (msg_connection_variables messages)) in
  let* id_to_var := alloc_publics id_to_var public_vars in
  let* private_vars := mlift (unwrap (msg_private_variables messages)) in
  alloc_privates id_to_var private_vars.

Definition generate_constraints (messages : Messages) : M unit :=
  let* id_to_var := bind_declared messages in
  let* _ := enforce_all id_to_var (msg_constraints messages) in
  mret tt.

End Synthesis.

(* ------------------------------------------------------------------ *)
(** ** The artifact orchestrator ([zkif_backend], zkif_backend.rs, lines 58-99) *)

(** Files by path. *)
Abbreviation FileSystem := (gmap string (list byte)).

(** [Path::join] on Unix ([PathBuf::push]): an absolute [name] replaces
    [dir]; otherwise a separator is put between them unless [dir] is empty
    or already ends with one. *)
Definition starts_with_sep (p : string) : bool :=
  match p with
  | String c _ => Ascii.eqb c "/"%char
  | EmptyString => false
  end.

Fixpoint ends_with_sep (p : string) : bool :=
  match p with
  | EmptyString => false
  | String c EmptyString => Ascii.eqb c "/"%char
  | String _ rest => ends_with_sep rest
  end.

Definition path_join (dir name : string) : string :=
  if starts_with_sep name then name
  else
    match dir with
    | EmptyString => name
    | _ => if ends_with_sep dir then String.append dir name
           else String.append dir (String.append "/" name)
    end.

(** What the host does with [File::create(path)] followed by writing
    [bytes] into the new file: the creation fails (a missing or read-only
    directory), a write fails after some bytes (a full disk), or every
    byte is written. *)
Inductive write_outcome := CreateFailed | WriteFailed (written : nat) | Written.

Section Backend.
(** The proving backend (bellman's Groth16 over BLS12-381), the random
    number generator and the host's file writes are external
    collaborators: key generation, proof generation and the
    (de)serialization of their results are functions of the circuit,
    [OsRng::new()] either succeeds or fails, and [write_env] says how a
    file write goes. *)
Context {Params Proof : Type}.
Context (generate_random_parameters : Messages -> Result Params SynthesisError).
Context (create_random_proof : Messages -> Params -> Result Proof SynthesisError).
Context (params_write : Params -> list byte).
Context (params_read : list byte -> option Params).
Context (proof_write : Proof -> list byte).
Context (write_env : FileSystem -> string -> list byte -> write_outcome).
Context (osrng_new_ok : bool).

(** [let f = File::create(path)?; x.write(f)?;] (lines 79-80 and 95-96).
    [File::create] truncates an existing file; [?] turns an I/O error of
    either step into [IoError]; a failed write leaves the bytes written
    before it. *)
Definition create_and_write (path : string) (bytes : list byte) (fs : FileSystem)
  : Result unit SynthesisError * FileSystem :=
  match write_env fs path bytes with
  | CreateFailed => (Err IoError, fs)
  | WriteFailed n => (Err IoError, <[path := take n bytes]> fs)
  | Written => (Ok tt, <[path := bytes]> fs)
  end.

(** Lines 83-97: [File::open(&key_path)?] and [Parameters::read(..)?] turn an
    I/O failure into [IoError]; then the proof is generated and written. *)
Definition prove_step (messages : Messages) (key_path proof_path : string)
    (fs : FileSystem) : Result unit SynthesisError * FileSystem :=
  match fs !! key_path with
  | None => (Err IoError, fs)
  | Some key_bytes =>
      match params_read key_bytes with
      | None => (Err IoError, fs)
      | Some params =>
          match create_random_proof messages params with
          | Err e => (Err e, fs)
          | Ok proof => create_and_write proof_path (proof_write proof) fs
          end
      end
  end.

(** Lines 72-81: key generation, then the key is written. *)
Definition setup_step (messages : Messages) (key_path : string)
    (fs : FileSystem) : Result unit SynthesisError * FileSystem :=
  match generate_random_parameters messages with
  | Err e => (Err e, fs)
  | Ok params => create_and_write key_path (params_write params) fs
  end.

Definition zkif_backend (messages : Messages) (out_dir : string)
    (fs : FileSystem) : Result unit SynthesisError * FileSystem :=
  let key_path := path_join out_dir "key" in
  let proof_path := path_join out_dir "proof" in
  match last_circuit messages with
  | None => (Err AssignmentMissing, fs)
  | Some circuit_msg =>
      if negb osrng_new_ok then (Err IoError, fs) else
      let '(r, fs) :=
        if hdr_r1cs_generation circuit_msg then setup_step messages key_path fs
        else (Ok tt, fs) in
      match r with
      | Err e => (Err e, fs)
      | Ok _ =>
          if hdr_witness_generation circuit_msg
          then prove_step messages key_path proof_path fs
          else (Ok tt, fs)
      end
  end.

End Backend.

(* ------------------------------------------------------------------ *)
(** ** Predicates used in the statements *)

(** Every term of [a], [b] and [c] refers to an id bound in [vars]. *)
Definition all_bound (vars : gmap N Var) (c : Constraint) : Prop :=
  Forall (fun t => is_Some (vars !! term_id t)) (con_a c ++ con_b c ++ con_c c).

(** The position of the last declaration of id [k] in [vars]. *)
Fixpoint last_decl (k : N) (vars : list WireVariable) : option nat :=
  match vars with
  | [] => None
  | v :: vs =>
      match last_decl k vs with
      | Some i => Some (S i)
      | None => if decide (var_id v = k) then Some 0%nat else None
      end
  end.

Section Expected.
Context `{PF : PrimeField}.

(** The gadgets [call_gadget] is expected to return for the declared
    outputs [outs], in order, when the caller's system is in [mode] and
    already holds [n] auxiliary variables. *)
Fixpoint declared_outputs (mode : cs_mode) (n : nat) (outs : list WireVariable)
  : list FpGadget :=
  match outs with
  | [] => []
  | o :: os =>
      {| fp_value := match mode with
                     | Setup => None
                     | Proving => Some (le_to_fr (var_value o))
                     end;
         fp_variable := Aux n |} :: declared_outputs mode (S n) os
  end.

(** A term translated against the table [vars]: the variable its id is
    bound to, with its decoded coefficient. *)
Definition term_translates (vars : gmap N Var) (t : Term) (p : Var * Z) : Prop :=
  vars !! term_id t = Some p.1 /\ p.2 = le_to_fr (term_value t).

(** A constraint translated term by term, [a], [b] and [c] in order. *)
Definition constraint_translates (vars : gmap N Var) (c : Constraint)
    (l : LinearCombination * LinearCombination * LinearCombination) : Prop :=
  Forall2 (term_translates vars) (con_a c) l.1.1 /\
  Forall2 (term_translates vars) (con_b c) l.1.2 /\
  Forall2 (term_translates vars) (con_c c) l.2.

End Expected.

(** The value a constraint system in [mode] records for a variable
    allocated with the value [v]. *)
Definition recorded (mode : cs_mode) (v : Z) : option Z :=
  match mode with Setup => None | Proving => Some v end.

(** The variable id [k] names inside a gadget call with [inputs], when the
    caller's system held [n] auxiliary variables and the response declared
    the outputs [outs] and the private variables [privs]. *)
Definition call_binding (inputs : list FpGadget) (n : nat)
    (outs privs : list WireVariable) (k : N) : option Var :=
  match last_decl k privs with
  | Some i => Some (Aux (n + length outs + i))
  | None =>
      match last_decl k outs with
      | Some i => Some (Aux (n + i))
      | None =>
          if decide (k = 0%N) then Some cs_one
          else fp_variable <$> inputs !! (N.to_nat k - 1)%nat
      end
  end.

(** An id the synthesis driver binds: 0, a public or a private variable. *)
Definition driver_declared (pubs privs : list WireVariable) (id : N) : Prop :=
  id = 0%N \/ id ∈ map var_id pubs \/ id ∈ map var_id privs.

(** The parts of a constraint system a foreign gadget call must not
    change: its mode and its public inputs. *)
Definition mode_inputs (cs : ConstraintSystem) : cs_mode * list (option Z) :=
  (cs_mode_of cs, cs_inputs cs).

(** Every term of [c] names an id satisfying [P]. *)
Definition constraint_ids (P : N -> Prop) (c : Constraint) : Prop :=
  Forall (fun t => P (term_id t)) (con_a c ++ con_b c ++ con_c c).

(** An id a gadget call with [k] inputs, declared outputs [outs] and
    private variables [privs] has bound: the constant one, a reserved input
    id, or a declared id. *)
Definition declared_id (k : nat) (outs privs : list WireVariable) (id : N) : Prop :=
  id = 0%N \/ (1 <= id <= N.of_nat k)%N \/ id ∈ map var_id outs \/ id ∈ map var_id privs.

(* ------------------------------------------------------------------ *)
(** ** Sample runs *)

Definition empty_cs (mode : cs_mode) : ConstraintSystem :=
  mkCS mode [Some 1] [] [].

Definition start (mode : cs_mode) : state := mkState (empty_cs mode) [].

Definition wv (id : N) (v : list byte) : WireVariable :=
  {| var_id := id; var_value := v |}.

Definition tm (id : N) : Term := {| term_id := id; term_value := [x01] |}.

(** The spec's end-to-end circuit: two public variables with values 3
    and 5, and [var1 * one = var1]. *)
Definition sample_messages : Messages := {|
  msg_circuits := [{| hdr_r1cs_generation := false; hdr_witness_generation := true |}];
  msg_connection_variables := Some [wv 1 [x03]; wv 2 [x05]];
  msg_private_variables := Some [];
  msg_constraints := [{| con_a := [tm 1]; con_b := [tm 0]; con_c := [tm 1] |}]
|}.

Example sample_run :
  generate_constraints sample_messages (start Proving) =
  (Ret tt,
   mkState (mkCS Proving [Some 1; Some 3; Some 5] []
              [([(Input 1, 1)], [(Input 0, 1)], [(Input 1, 1)])])
           [Bind 0 (Input 0); Bind 1 (Input 1); Bind 2 (Input 2);
            Resolve 1; Resolve 0; Resolve 1]).
Proof. reflexivity. Qed.

(** Thirty-two [0xff] bytes: [2^256 - 1], above the BLS12-381 modulus. *)
Definition all_ones_32 : list byte := repeat xff 32.

(** A circuit whose only public variable has the value [2^256 - 1]. *)
Definition oversized_messages : Messages := {|
  msg_circuits := [{| hdr_r1cs_generation := false; hdr_witness_generation := true |}];
  msg_connection_variables := Some [wv 1 all_ones_32];
  msg_private_variables := Some [];
  msg_constraints := [{| con_a := [tm 1]; con_b := [tm 0]; con_c := [tm 1] |}]
|}.

(** A table binding only id 0, a constraint over it, and one that also
    uses the unbound id 5. *)
Definition one_table : gmap N Var := <[0%N := cs_one]> ∅.

Definition c_one : Constraint := {| con_a := [tm 0]; con_b := [tm 0]; con_c := [tm 0] |}.

Definition c_unbound : Constraint := {| con_a := [tm 0]; con_b := [tm 5]; con_c := [tm 0] |}.

(** Gadget inputs with and without values. *)
Definition gadget (v : option Z) (n : nat) : FpGadget :=
  {| fp_value := v; fp_variable := Aux n |}.

(** A [CircuitOwned] writer stand-in and an external gadget answering
    with an empty fragment. *)
Definition write_nothing (_ : CircuitOwned) : list byte := [].

Definition empty_response : Messages := {|
  msg_circuits := [];
  msg_connection_variables := Some [];
  msg_private_variables := Some [];
  msg_constraints := []
|}.

Definition exec_empty (_ : list byte) : Result Messages string := Ok empty_response.

(** A circuit declaring a public variable with the reserved id 0 and a
    constraint over id 0. *)
Definition rebind_zero_messages : Messages := {|
  msg_circuits := [{| hdr_r1cs_generation := false; hdr_witness_generation := true |}];
  msg_connection_variables := Some [wv 0 [x07]];
  msg_private_variables := Some [];
  msg_constraints := [{| con_a := [tm 0]; con_b := [tm 0]; con_c := [tm 0] |}]
|}.

(** Two inputs without values and the call message built for them. *)
Definition two_inputs : list FpGadget := [gadget None 3; gadget None 4].

Definition two_call : CircuitOwned := {|
  connections := {| variable_ids := [1%N; 2%N]; values := None |};
  free_variable_id := 3%N;
  r1cs_generation := true;
  field_maximum := None
|}.

(** An external gadget that declares the output id 1 and then states a
    constraint over id 7, which it never declared. *)
Definition undeclared_response : Messages := {|
  msg_circuits := [];
  msg_connection_variables := Some [wv 1 [x05]];
  msg_private_variables := Some [];
  msg_constraints := [{| con_a := [tm 7]; con_b := [tm 0]; con_c := [tm 0] |}]
|}.

Definition exec_undeclared (_ : list byte) : Result Messages string :=
  Ok undeclared_response.

Definition exec_refused (_ : list byte) : Result Messages string :=
  Err "gadget not found"%string.

(** The call message for no inputs, and a gadget declaring the output
    id 1 and the private id 2, with the constraint [out * one = priv]. *)
Definition no_input_call : CircuitOwned := {|
  connections := {| variable_ids := []; values := None |};
  free_variable_id := 1%N;
  r1cs_generation := true;
  field_maximum := None
|}.



(** A gadget answering without a private-variable section. *)
Definition no_private_response : Messages := {|
  msg_circuits := [];
  msg_connection_variables := Some [wv 1 [x05]];
  msg_private_variables := None;
  msg_constraints := []
|}.

Definition exec_no_private (_ : list byte) : Result Messages string :=
  Ok no_private_response.

(** A gadget answering without an output section, with the private id 2,
    a constraint over it, and then a constraint over the undeclared id 7. *)
Definition late_undeclared_response : Messages := {|
  msg_circuits := [];
  msg_connection_variables := None;
  msg_private_variables := Some [wv 2 [x05]];
  msg_constraints := [{| con_a := [tm 2]; con_b := [tm 0]; con_c := [tm 2] |};
                      {| con_a := [tm 7]; con_b := [tm 0]; con_c := [tm 0] |}]
|}.

Definition exec_late_undeclared (_ : list byte) : Result Messages string :=
  Ok late_undeclared_response.

(** Circuits whose last header asks for key generation only, and for key
    generation and proving. *)
Definition setup_messages : Messages := {|
  msg_circuits := [{| hdr_r1cs_generation := true; hdr_witness_generation := false |}];
  msg_connection_variables := Some [];
  msg_private_variables := Some [];
  msg_constraints := []
|}.

Definition both_messages : Messages := {|
  msg_circuits := [{| hdr_r1cs_generation := true; hdr_witness_generation := true |}];
  msg_connection_variables := Some [];
  msg_private_variables := Some [];
  msg_constraints := []
|}.

(* ================================================================== *)
(** * Properties *)

(* ------------------------------------------------------------------ *)
(** ** The field codec *)

Lemma byte_to_Z_of_Z (z : Z) : byte_to_Z (byte_of_Z z) = z mod 256.
Proof.
  unfold byte_to_Z, byte_of_Z.
  pose proof (Z.mod_pos_bound z 256 ltac:(lia)) as Hb.
  pose proof (Byte.to_of_N_option_map (Z.to_N (z mod 256))) as Ho.
  assert (L : N.leb (Z.to_N (z mod 256)) 255 = true) by (apply N.leb_le; lia).
  rewrite L in Ho.
  destruct (Byte.of_N (Z.to_N (z mod 256))) as [b|] eqn:E; simpl in Ho.
  - injection Ho as Ho. rewrite Ho. lia.
  - discriminate.
Qed.

Lemma byte_to_Z_range (b : byte) : 0 <= byte_to_Z b < 256.
Proof. unfold byte_to_Z. pose proof (Byte.to_N_bounded b). lia. Qed.

Lemma length_Z_to_le_bytes (n : nat) (z : Z) : length (Z_to_le_bytes n z) = n.
Proof. revert z; induction n; intros z; simpl; auto. Qed.

Lemma le_bytes_to_Z_range (bs : list byte) :
  0 <= le_bytes_to_Z bs < 2 ^ (8 * Z.of_nat (length bs)).
Proof.
  induction bs as [|b bs IH]; simpl.
  - lia.
  - pose proof (byte_to_Z_range b).
    replace (8 * Z.of_nat (S (length bs))) with (8 + 8 * Z.of_nat (length bs)) by lia.
    rewrite Z.pow_add_r by lia. change (2 ^ 8) with 256. nia.
Qed.

(** Writing [n] little-endian bytes and reading them back gives the value
    modulo [2^(8n)]. *)
Lemma le_bytes_to_Z_of_Z (n : nat) (z : Z) :
  le_bytes_to_Z (Z_to_le_bytes n z) = z mod 2 ^ (8 * Z.of_nat n).
Proof.
  revert z; induction n as [|n IH]; intros z; simpl.
  - rewrite Z.mul_0_r, Z.pow_0_r, Z.mod_1_r. reflexivity.
  - rewrite IH, byte_to_Z_of_Z.
    replace (8 * Z.of_nat (S n)) with (8 + 8 * Z.of_nat n) by lia.
    rewrite Z.pow_add_r by lia. change (2 ^ 8) with 256.
    rewrite Z.rem_mul_r; [reflexivity | lia |].
    apply Z.pow_pos_nonneg; lia.
Qed.

Section CodecFacts.
Context `{PF : PrimeField}.

Lemma bits_le_limbs :
  0 < size_in_bits -> 1 <= words /\ size_in_bits <= 64 * words.
Proof.
  intros Hb. unfold words.
  pose proof (Z.div_mod (size_in_bits + 63) 64 ltac:(lia)).
  pose proof (Z.mod_pos_bound (size_in_bits + 63) 64 ltac:(lia)).
  lia.
Qed.

(** The bit length of a modulus above 1 is positive, and the modulus fits
    in that many bits. *)
Lemma field_bits : 0 < size_in_bits /\ modulus <= 2 ^ size_in_bits.
Proof.
  pose proof modulus_gt_1 as H1. pose proof modulus_bits as [_ H2].
  split; [|lia].
  destruct (Z.lt_ge_cases 0 size_in_bits) as [Hp|Hn]; [exact Hp|].
  exfalso. destruct (Z.eq_dec size_in_bits 0) as [E|E].
  - rewrite E in H2. simpl in H2. lia.
  - rewrite Z.pow_neg_r in H2 by lia. lia.
Qed.

End CodecFacts.

(** C5: decoding the canonical little-endian encoding of a valid field
    element gives it back, and the empty buffer decodes to zero. *)
Theorem le_to_fr_roundtrip `{PF : PrimeField} (x : Z) :
  valid_fr x ->
  le_to_fr (fr_to_le x) = x /\ le_to_fr [] = fr_zero.
Proof.
  intros [Hx0 Hx1]. split; [|reflexivity].
  destruct field_bits as [Hbits Hmod].
  destruct (bits_le_limbs Hbits) as [Hw Hwb].
  unfold le_to_fr, fr_to_le, into_repr.
  set (n := Z.to_nat (8 * words)).
  assert (Hn : Z.of_nat n = 8 * words) by (unfold n; lia).
  destruct (Z_to_le_bytes n x) as [|b bs] eqn:E.
  { apply (f_equal length) in E. rewrite length_Z_to_le_bytes in E.
    simpl in E. lia. }
  rewrite <- E, resize_all_alt by (rewrite length_Z_to_le_bytes; reflexivity).
  rewrite le_bytes_to_Z_of_Z, Z.mod_small.
  - unfold from_repr.
    replace ((0 <=? x) && (x <? modulus)) with true by (symmetry; apply andb_true_iff; split; apply Z.leb_le || apply Z.ltb_lt; lia).
    reflexivity.
  - split; [lia|]. rewrite Hn.
    apply (Z.lt_le_trans _ modulus); [lia|].
    apply (Z.le_trans _ (2 ^ size_in_bits)); [lia|].
    apply Z.pow_le_mono_r; lia.
Qed.

(** C4 (as the code does it): [le_to_fr] has no error result. A non-empty
    buffer whose padded little-endian value is at least the modulus is
    decoded to [F::zero()] by [from_repr]; no [DecodeError] is raised. *)
Theorem le_to_fr_out_of_range `{PF : PrimeField} (bs : list byte) :
  bs <> [] ->
  modulus <= le_bytes_to_Z (resize (Z.to_nat (8 * words)) x00 bs) ->
  le_to_fr bs = fr_zero.
Proof.
  intros Hne Hge. unfold le_to_fr.
  destruct bs as [|b bs']; [contradiction|].
  unfold from_repr. cbv zeta.
  replace (le_bytes_to_Z (resize (Z.to_nat (8 * words)) x00 (b :: bs')) <? modulus)
    with false by (symmetry; apply Z.ltb_ge; exact Hge).
  rewrite andb_false_r. reflexivity.
Qed.

Lemma le_to_fr_roundtrip_witness :
  valid_fr 7 /\ (le_to_fr (fr_to_le 7) = 7 /\ le_to_fr [] = fr_zero).
Proof.
  assert (H : valid_fr 7) by (unfold valid_fr; simpl; lia).
  split; [exact H|]. exact (le_to_fr_roundtrip 7 H).
Defined.

Lemma le_to_fr_out_of_range_witness :
  (all_ones_32 <> [] /\
   modulus <= le_bytes_to_Z (resize (Z.to_nat (8 * words)) x00 all_ones_32)) /\
  le_to_fr all_ones_32 = fr_zero.
Proof.
  assert (H : all_ones_32 <> [] /\
              modulus <= le_bytes_to_Z (resize (Z.to_nat (8 * words)) x00 all_ones_32))
    by (split; [discriminate | vm_compute; discriminate]).
  split; [exact H|]. exact (le_to_fr_out_of_range all_ones_32 (proj1 H) (proj2 H)).
Defined.

(** C4 refuted: a buffer above the modulus is not rejected; it decodes to
    zero and the synthesis that reads it succeeds. *)
Lemma le_to_fr_no_decode_error :
  modulus <= le_bytes_to_Z (resize (Z.to_nat (8 * words)) x00 all_ones_32) /\
  le_to_fr all_ones_32 = 0 /\
  fst (generate_constraints oversized_messages (start Proving)) = Ret tt.
Proof. split; [vm_compute; discriminate | split; vm_compute; reflexivity]. Qed.

(* ------------------------------------------------------------------ *)
(** ** Effects of the monadic operations on the state *)

Definition preserves (R : state -> state -> Prop) {A} (m : M A) : Prop :=
  forall s, R s (snd (m s)).

(** The table log only grows. *)
Definition trace_ext (s s' : state) : Prop :=
  exists l, st_trace s' = st_trace s ++ l.

(** The constraint system is untouched. *)
Definition same_cs (s s' : state) : Prop := st_cs s' = st_cs s.

(** No variable is allocated (constraints may be added). *)
Definition same_vars (s s' : state) : Prop :=
  cs_mode_of (st_cs s') = cs_mode_of (st_cs s) /\
  cs_inputs (st_cs s') = cs_inputs (st_cs s) /\
  cs_aux (st_cs s') = cs_aux (st_cs s).

#[export] Instance trace_ext_preorder : PreOrder trace_ext.
Proof.
  split.
  - intros s. exists []. rewrite app_nil_r. reflexivity.
  - intros s1 s2 s3 [l1 H1] [l2 H2]. exists (l1 ++ l2).
    rewrite H2, H1, app_assoc. reflexivity.
Qed.

#[export] Instance same_cs_preorder : PreOrder same_cs.
Proof. unfold same_cs. split; [intros s; reflexivity | intros s1 s2 s3 H1 H2; congruence]. Qed.

#[export] Instance same_vars_preorder : PreOrder same_vars.
Proof.
  unfold same_vars. split.
  - intros s. auto.
  - intros s1 s2 s3 (?&?&?) (?&?&?). repeat split; congruence.
Qed.

Section Preserves.
Context (R : state -> state -> Prop) `{!PreOrder R}.

Lemma pres_ret {A} (a : A) : preserves R (mret a).
Proof. intros s. simpl. reflexivity. Qed.

Lemma pres_lift {A} (o : outcome A) : preserves R (mlift o).
Proof. intros s. simpl. reflexivity. Qed.

Lemma pres_bind {A B} (m : M A) (k : A -> M B) :
  preserves R m -> (forall a, preserves R (k a)) -> preserves R (mbind m k).
Proof.
  intros Hm Hk s. unfold mbind. pose proof (Hm s) as H1.
  destruct (m s) as [o s1]; simpl in H1.
  destruct o; simpl; [etrans; [exact H1 | apply Hk] | exact H1 | exact H1].
Qed.

Lemma pres_fold {A B} (f : A -> B -> M A) (l : list B) (a : A) :
  (forall a b, preserves R (f a b)) -> preserves R (mfold_left f l a).
Proof.
  intros Hf. revert a; induction l as [|x l IH]; intros a; simpl.
  - apply pres_ret.
  - apply pres_bind; auto.
Qed.

End Preserves.

Create HintDb pres.
#[export] Hint Resolve pres_ret pres_lift : pres.

(** Decompose a program into its primitive steps. *)
Ltac pres_tac :=
  repeat match goal with
  | |- forall _, _ => intro
  | |- preserves _ (mbind _ _) => apply pres_bind; [typeclasses eauto | |]
  | |- preserves _ (mfold_left _ _ _) => apply pres_fold; [typeclasses eauto|]
  | |- preserves _ (match ?x with _ => _ end) => destruct x
  | |- preserves _ (match ?x with _ => _ end _) => destruct x
  end;
  try solve [eauto with pres typeclass_instances].

Lemma log_trace_ext ev : preserves trace_ext (log ev).
Proof. intros s. exists [ev]. reflexivity. Qed.

Lemma log_same_cs ev : preserves same_cs (log ev).
Proof. intros s. reflexivity. Qed.

Lemma get_mode_pres R `{!PreOrder R} : preserves R get_mode.
Proof. intros s. simpl. reflexivity. Qed.

Lemma cs_alloc_trace_ext v : preserves trace_ext (cs_alloc v).
Proof. intros s. exists []. rewrite app_nil_r. reflexivity. Qed.

Lemma cs_alloc_input_trace_ext v : preserves trace_ext (cs_alloc_input v).
Proof. intros s. exists []. rewrite app_nil_r. reflexivity. Qed.

#[export] Hint Resolve log_trace_ext log_same_cs get_mode_pres
  cs_alloc_trace_ext cs_alloc_input_trace_ext : pres.

Lemma log_same_vars ev : preserves same_vars (log ev).
Proof. intros s. unfold same_vars. simpl. auto. Qed.
#[export] Hint Resolve log_same_vars : pres.

Lemma tbl_insert_pres R `{!PreOrder R} t id v :
  preserves R (log (Bind id v)) -> preserves R (tbl_insert t id v).
Proof. intros H. unfold tbl_insert. pres_tac. Qed.

Lemma tbl_get_pres R `{!PreOrder R} t id :
  preserves R (log (Resolve id)) -> preserves R (tbl_get t id).
Proof. intros H. unfold tbl_get. pres_tac. Qed.
#[export] Hint Resolve tbl_insert_pres tbl_get_pres : pres.

Lemma cs_enforce_pres_trace a b c :
  preserves trace_ext a -> preserves trace_ext b -> preserves trace_ext c ->
  preserves trace_ext (cs_enforce a b c).
Proof.
  intros Ha Hb Hc. unfold cs_enforce. pres_tac.
  intros s. exists []. simpl. rewrite app_nil_r. reflexivity.
Qed.

Lemma cs_enforce_pres_vars a b c :
  preserves same_vars a -> preserves same_vars b -> preserves same_vars c ->
  preserves same_vars (cs_enforce a b c).
Proof.
  intros Ha Hb Hc. unfold cs_enforce. pres_tac.
  intros s. unfold same_vars. simpl. auto.
Qed.
#[export] Hint Resolve cs_enforce_pres_trace cs_enforce_pres_vars : pres.

Lemma mbind_assoc {A B C} (m : M A) (k1 : A -> M B) (k2 : B -> M C) s :
  mbind (mbind m k1) k2 s = mbind m (fun a => mbind (k1 a) k2) s.
Proof. unfold mbind. destruct (m s) as [[a|e|] s1]; reflexivity. Qed.

Lemma mbind_ret_eq {A B} (m : M A) (k : A -> M B) s a s1 :
  m s = (Ret a, s1) -> mbind m k s = k a s1.
Proof. intros E. unfold mbind. rewrite E. reflexivity. Qed.

Lemma mbind_lift_ret {A B} (a : A) (k : A -> M B) s :
  mbind (mlift (Ret a)) k s = k a s.
Proof. reflexivity. Qed.

Section Effects.
Context `{PF : PrimeField}.

Lemma terms_to_lc_trace vars terms : preserves trace_ext (terms_to_lc vars terms).
Proof. unfold terms_to_lc. pres_tac. Qed.

Lemma terms_to_lc_same_cs vars terms : preserves same_cs (terms_to_lc vars terms).
Proof. unfold terms_to_lc. pres_tac. Qed.

Lemma terms_to_lc_same_vars vars terms : preserves same_vars (terms_to_lc vars terms).
Proof. unfold terms_to_lc. pres_tac. Qed.
#[local] Hint Resolve terms_to_lc_trace terms_to_lc_same_cs terms_to_lc_same_vars : pres.

Lemma enforce_all_trace vars cs : preserves trace_ext (enforce_all vars cs).
Proof. unfold enforce_all, enforce. pres_tac. Qed.

Lemma enforce_all_same_vars vars cs : preserves same_vars (enforce_all vars cs).
Proof. unfold enforce_all, enforce. pres_tac. Qed.
#[local] Hint Resolve enforce_all_trace enforce_all_same_vars : pres.

Lemma alloc_privates_trace t vs : preserves trace_ext (alloc_privates t vs).
Proof. unfold alloc_privates. pres_tac. Qed.

Lemma alloc_publics_trace t vs : preserves trace_ext (alloc_publics t vs).
Proof. unfold alloc_publics. pres_tac. Qed.

Lemma seed_inputs_trace t ids inputs : preserves trace_ext (seed_inputs t ids inputs).
Proof. unfold seed_inputs. pres_tac. Qed.

Lemma alloc_outputs_trace t o : preserves trace_ext (alloc_outputs t o).
Proof. unfold alloc_outputs, fp_alloc. pres_tac. Qed.
#[local] Hint Resolve alloc_privates_trace alloc_publics_trace seed_inputs_trace
  alloc_outputs_trace : pres.

(** A session whose first step binds id 0 to [CS::one()] logs that binding
    before any other table operation. *)
Lemma starts_with_one {A} (k : gmap N Var -> M A) s :
  (forall t, preserves trace_ext (k t)) ->
  exists rest, st_trace (snd (mbind (tbl_insert ∅ 0 cs_one) k s)) =
               st_trace s ++ Bind 0 cs_one :: rest.
Proof.
  intros Hk. unfold tbl_insert. rewrite mbind_assoc.
  cbn [mbind log mret st_trace st_cs].
  destruct (Hk (<[0%N:=cs_one]> ∅) (mkState (st_cs s) (st_trace s ++ [Bind 0 cs_one])))
    as [l Hl].
  exists l. rewrite Hl. simpl. rewrite <- app_assoc. reflexivity.
Qed.

End Effects.

#[export] Hint Resolve terms_to_lc_trace terms_to_lc_same_cs terms_to_lc_same_vars
  enforce_all_trace enforce_all_same_vars alloc_privates_trace alloc_publics_trace
  seed_inputs_trace alloc_outputs_trace : pres.

(** C7: in the synthesis driver and in every foreign gadget call, the first
    table operation is binding id 0 to the constant-one variable (a gadget
    call that stops before building its table performs none). *)
Theorem one_bound_first `{PF : PrimeField} (circuit_write : CircuitOwned -> list byte)
    (messages : Messages) (inputs : list FpGadget)
    (exec_fn : list byte -> Result Messages string) (s : state) :
  (exists rest, st_trace (snd (generate_constraints messages s)) =
                st_trace s ++ Bind 0 cs_one :: rest) /\
  (st_trace (snd (call_gadget circuit_write inputs exec_fn s)) = st_trace s \/
   exists rest, st_trace (snd (call_gadget circuit_write inputs exec_fn s)) =
                st_trace s ++ Bind 0 cs_one :: rest).
Proof.
  split.
  - unfold generate_constraints, bind_declared.
    rewrite mbind_assoc. apply starts_with_one.
    intros t. pres_tac.
  - unfold call_gadget.
    destruct (build_call inputs) as [call|e|]; [|left; reflexivity|left; reflexivity].
    rewrite mbind_lift_ret.
    destruct (exec_fn (circuit_write call)) as [m|e]; [|left; reflexivity].
    rewrite mbind_lift_ret. right. unfold splice, seed_table. rewrite mbind_assoc. apply starts_with_one.
    intros t. pres_tac.
Qed.

(* ------------------------------------------------------------------ *)
(** ** Loops that succeed and loops that panic *)

Lemma mfold_ok {A B} (f : A -> B -> M A) (l : list B) :
  (forall b, In b l -> forall a s, exists a' s', f a b s = (Ret a', s')) ->
  forall a s, exists a' s', mfold_left f l a s = (Ret a', s').
Proof.
  induction l as [|x l IH]; intros Hf a s; simpl.
  - eauto.
  - destruct (Hf x (or_introl eq_refl) a s) as (a' & s' & E).
    unfold mbind. rewrite E. apply IH. intros b Hb. apply Hf. right. exact Hb.
Qed.

Lemma mfold_panic {A B} (f : A -> B -> M A) (l : list B) :
  (forall b a s e, fst (f a b s) <> Fail e) ->
  Exists (fun b => forall a s, fst (f a b s) = Panic) l ->
  forall a s, fst (mfold_left f l a s) = Panic.
Proof.
  intros Hnf. induction 1 as [x l Hx | x l Hl IH]; intros a s; simpl; unfold mbind.
  - specialize (Hx a s). destruct (f a x s) as [o s1]. simpl in Hx. subst o. reflexivity.
  - pose proof (Hnf x a s) as Hn. destruct (f a x s) as [o s1]. simpl in Hn.
    destruct o as [a1|e|]; [apply IH | exfalso; exact (Hn e eq_refl) | reflexivity].
Qed.

Section Enforce.
Context `{PF : PrimeField}.

Lemma terms_to_lc_result (vars : gmap N Var) (terms : list Term) (s : state) :
  st_cs (snd (terms_to_lc vars terms s)) = st_cs s /\
  (Forall (fun t => is_Some (vars !! term_id t)) terms ->
   exists lc, fst (terms_to_lc vars terms s) = Ret lc) /\
  (~ Forall (fun t => is_Some (vars !! term_id t)) terms ->
   fst (terms_to_lc vars terms s) = Panic).
Proof.
  split; [apply (terms_to_lc_same_cs vars terms s)|]. split.
  - intros Hall. unfold terms_to_lc.
    match goal with |- context [mfold_left ?f terms ?a0 s] =>
      destruct (mfold_ok f terms) with (a := a0) (s := s) as (lc & s' & E) end;
    [|rewrite E; eauto].
    intros b Hb a s0. pose proof (proj1 (List.Forall_forall _ _) Hall b Hb) as [v Hv]. unfold mbind, tbl_get, log, mlift, unwrap. simpl.
    rewrite Hv. simpl. eauto.
  - intros Hnot. unfold terms_to_lc. apply mfold_panic.
    + intros b a s0 e. unfold mbind, tbl_get, log, mlift, unwrap. simpl.
      destruct (vars !! term_id b); simpl; discriminate.
    + apply not_Forall_Exists in Hnot; [|intros t; apply _].
      eapply Exists_impl; [exact Hnot|]. intros t Ht a s0.
      unfold mbind, tbl_get, log, mlift, unwrap. simpl.
      destruct (vars !! term_id t) eqn:Et; [exfalso; apply Ht; simpl; rewrite Et; eauto | reflexivity].
Qed.

End Enforce.

Lemma enforce_spec `{PF : PrimeField} (vars : gmap N Var) (c : Constraint) (s : state) :
  (all_bound vars c ->
   exists lcs s', enforce vars c s = (Ret tt, s') /\
     cs_constraints (st_cs s') = cs_constraints (st_cs s) ++ [lcs] /\
     same_vars s s') /\
  (~ all_bound vars c ->
   fst (enforce vars c s) = Panic /\ st_cs (snd (enforce vars c s)) = st_cs s).
Proof.
  unfold all_bound. rewrite !Forall_app.
  unfold enforce, cs_enforce, mbind.
  destruct (terms_to_lc_result vars (con_a c) s) as (Ca & Oa & Pa).
  destruct (terms_to_lc vars (con_a c) s) as [oa sa] eqn:Ea; simpl in Ca, Oa, Pa.
  destruct (terms_to_lc_result vars (con_b c) sa) as (Cb & Ob & Pb).
  destruct (terms_to_lc_result vars (con_c c) sa) as (Cc0 & Oc0 & Pc0).
  split.
  - intros (Ha & Hb & Hc).
    destruct (Oa Ha) as [la ->].
    destruct (terms_to_lc vars (con_b c) sa) as [ob sb] eqn:Eb; simpl in Cb, Ob.
    destruct (Ob Hb) as [lb ->].
    destruct (terms_to_lc_result vars (con_c c) sb) as (Cc & Oc & Pc).
    destruct (terms_to_lc vars (con_c c) sb) as [oc sc] eqn:Ec; simpl in Cc, Oc.
    destruct (Oc Hc) as [lc ->].
    eexists (la, lb, lc), _. split; [reflexivity|]. simpl.
    rewrite Cc, Cb, Ca. split; [reflexivity|]. unfold same_vars. simpl. auto.
  - intros Hnot.
    destruct (decide (Forall (fun t => is_Some (vars !! term_id t)) (con_a c))) as [Ha|Ha];
      [|rewrite (Pa Ha); simpl; auto].
    destruct (Oa Ha) as [la ->].
    destruct (terms_to_lc vars (con_b c) sa) as [ob sb] eqn:Eb; simpl in Cb, Ob, Pb.
    destruct (decide (Forall (fun t => is_Some (vars !! term_id t)) (con_b c))) as [Hb|Hb];
      [|rewrite (Pb Hb); simpl; split; [reflexivity | congruence]].
    destruct (Ob Hb) as [lb ->].
    destruct (terms_to_lc_result vars (con_c c) sb) as (Cc & Oc & Pc).
    destruct (terms_to_lc vars (con_c c) sb) as [oc sc] eqn:Ec; simpl in Cc, Oc, Pc.
    assert (Hc : ~ Forall (fun t => is_Some (vars !! term_id t)) (con_c c)) by tauto.
    rewrite (Pc Hc). simpl. split; [reflexivity | congruence].
Qed.

(** C3 (as the code does it): with every id bound, [enforce] succeeds and
    adds exactly one constraint, allocating nothing; with an unbound id it
    panics (the [unwrap] on the table lookup) instead of returning an
    error, and no constraint is added. *)
Theorem enforce_adds_one `{PF : PrimeField} (vars : gmap N Var) (c : Constraint) (s : state) :
  (all_bound vars c ->
   exists lcs s', enforce vars c s = (Ret tt, s') /\
     cs_constraints (st_cs s') = cs_constraints (st_cs s) ++ [lcs] /\
     same_vars s s') /\
  (~ all_bound vars c ->
   fst (enforce vars c s) = Panic /\ st_cs (snd (enforce vars c s)) = st_cs s).
Proof. apply enforce_spec. Qed.

Lemma enforce_adds_one_witness :
  (all_bound one_table c_one /\ ~ all_bound one_table c_unbound) /\
  (exists lcs s', enforce one_table c_one (start Setup) = (Ret tt, s') /\
     cs_constraints (st_cs s') = cs_constraints (st_cs (start Setup)) ++ [lcs] /\
     same_vars (start Setup) s') /\
  (fst (enforce one_table c_unbound (start Setup)) = Panic /\
   st_cs (snd (enforce one_table c_unbound (start Setup))) = st_cs (start Setup)).
Proof.
  assert (H1 : all_bound one_table c_one)
    by (apply (bool_decide_unpack _); vm_compute; exact I).
  assert (H2 : ~ all_bound one_table c_unbound)
    by (intros H; apply (bool_decide_pack _) in H; vm_compute in H; exact H).
  split; [split; assumption|]. split.
  - exact (proj1 (enforce_adds_one one_table c_one (start Setup)) H1).
  - exact (proj2 (enforce_adds_one one_table c_unbound (start Setup)) H2).
Defined.

(* ------------------------------------------------------------------ *)
(** ** Mode detection and the call message *)

Section CallMessage.
Context `{PF : PrimeField}.

Lemma serialize_values_all (inputs : list FpGadget) :
  Forall (fun i => is_Some (fp_value i)) inputs ->
  serialize_values inputs = Ret (flat_map (fun i => from_option fr_to_le [] (fp_value i)) inputs).
Proof.
  induction 1 as [|i rest [v Hv] _ IH]; simpl; [reflexivity|].
  rewrite Hv, IH. reflexivity.
Qed.

Lemma serialize_values_missing (inputs : list FpGadget) :
  Exists (fun i => fp_value i = None) inputs -> serialize_values inputs = Panic.
Proof.
  induction 1 as [i rest Hi | i rest _ IH]; simpl.
  - rewrite Hi. reflexivity.
  - destruct (fp_value i); [rewrite IH|]; reflexivity.
Qed.

End CallMessage.

(** C2 (as the code does it): the mode is read from the first input only.
    An empty list or a first input without a value gives a structural call
    (no values), whatever the later inputs carry; a non-empty list whose
    inputs all carry values gives a witness call with their encodings; a
    first input with a value followed by one without panics at the
    [unwrap] while the values are serialized. No input list is rejected
    with an error. *)
Theorem build_call_mode `{PF : PrimeField} (inputs : list FpGadget) :
  ((inputs = [] \/ exists i0 rest, inputs = i0 :: rest /\ fp_value i0 = None) ->
   exists call, build_call inputs = Ret call /\ values (connections call) = None) /\
  (inputs <> [] -> Forall (fun i => is_Some (fp_value i)) inputs ->
   exists call, build_call inputs = Ret call /\
     values (connections call) =
       Some (flat_map (fun i => from_option fr_to_le [] (fp_value i)) inputs)) /\
  ((exists i0 v rest, inputs = i0 :: rest /\ fp_value i0 = Some v) ->
   Exists (fun i => fp_value i = None) inputs ->
   build_call inputs = Panic).
Proof.
  split; [|split].
  - intros [-> | (i0 & rest & -> & Hn)].
    + eexists. split; [reflexivity|reflexivity].
    + unfold build_call, witness_generation_of. rewrite Hn.
      rewrite bool_decide_false by (intros [? H]; discriminate).
      eexists. split; [reflexivity|reflexivity].
  - intros Hne Hall. destruct inputs as [|i0 rest]; [contradiction|].
    unfold build_call, witness_generation_of.
    pose proof (Forall_inv Hall) as Hi0.
    rewrite bool_decide_true by exact Hi0.
    rewrite serialize_values_all by exact Hall.
    eexists. split; [reflexivity|reflexivity].
  - intros (i0 & v & rest & -> & Hv) Hex.
    unfold build_call, witness_generation_of. rewrite Hv.
    rewrite bool_decide_true by (eexists; reflexivity).
    rewrite serialize_values_missing by exact Hex.
    reflexivity.
Qed.

Lemma build_call_mode_witness :
  (exists call, build_call [gadget None 0; gadget (Some 5) 1] = Ret call /\
     values (connections call) = None) /\
  (exists call, build_call [gadget (Some 5) 0; gadget (Some 6) 1] = Ret call /\
     values (connections call) = Some (fr_to_le 5 ++ fr_to_le 6 ++ [])) /\
  build_call [gadget (Some 5) 0; gadget None 1] = Panic.
Proof.
  split; [|split].
  - apply (proj1 (build_call_mode [gadget None 0; gadget (Some 5) 1])).
    right. exists (gadget None 0), [gadget (Some 5) 1]. split; reflexivity.
  - apply (proj1 (proj2 (build_call_mode [gadget (Some 5) 0; gadget (Some 6) 1]))).
    + discriminate.
    + repeat constructor; eexists; reflexivity.
  - apply (proj2 (proj2 (build_call_mode [gadget (Some 5) 0; gadget None 1]))).
    + exists (gadget (Some 5) 0), 5, [gadget None 1]. split; reflexivity.
    + apply Exists_cons. right. apply Exists_cons. left. reflexivity.
Defined.

(** C2 refuted: a mixed input list whose first input has no value is not
    rejected; the call is built in structural mode and the gadget call
    returns normally. *)
Lemma mixed_inputs_not_rejected :
  build_call [gadget None 0; gadget (Some 5) 1] =
    Ret {| connections := {| variable_ids := [1%N; 2%N]; values := None |};
           free_variable_id := 3;
           r1cs_generation := true;
           field_maximum := None |} /\
  fst (call_gadget write_nothing [gadget None 0; gadget (Some 5) 1] exec_empty
         (start Proving)) = Ret [].
Proof. split; vm_compute; reflexivity. Qed.

(** C10: with no inputs the call is structural: the message built carries
    no values, no input ids, and [free_variable_id = 1]; and in every
    state of the caller (a proving one included) this is the only message
    [call_gadget] hands to the gadget: the call fails with
    [Unsatisfiable] if the gadget refuses it, and otherwise continues with
    the gadget's answer to it. *)
Theorem empty_inputs_structural `{PF : PrimeField} :
  let structural :=
    {| connections := {| variable_ids := []; values := None |};
       free_variable_id := 1;
       r1cs_generation := true;
       field_maximum := None |} in
  witness_generation_of [] = false /\
  build_call [] = Ret structural /\
  forall (circuit_write : CircuitOwned -> list byte)
         (exec_fn : list byte -> Result Messages string) (s : state),
    call_gadget circuit_write [] exec_fn s =
      match exec_fn (circuit_write structural) with
      | Ok messages => splice [] structural messages s
      | Err _ => (Fail Unsatisfiable, s)
      end.
Proof.
  intros structural. split; [reflexivity|]. split; [reflexivity|].
  intros circuit_write exec_fn s. unfold call_gadget.
  change (build_call []) with (Ret structural). rewrite mbind_lift_ret.
  destruct (exec_fn (circuit_write structural)); [|reflexivity].
  rewrite mbind_lift_ret. reflexivity.
Qed.

(** C3 refuted: a constraint over an unbound id makes [enforce] panic; it
    does not return an [UnknownVariable] error. *)
Lemma enforce_unbound_panics :
  fst (enforce one_table c_unbound (start Setup)) = Panic /\
  length (cs_constraints (st_cs (snd (enforce one_table c_unbound (start Setup))))) = 0%nat.
Proof. split; vm_compute; reflexivity. Qed.

(* ------------------------------------------------------------------ *)
(** ** The orchestrator *)

(** C9: a proving run ([witness_generation] set, [r1cs_generation] not
    set) in a directory without a key file fails with [IoError] and writes
    nothing, in particular no proof file. *)
Theorem prove_without_key_fails {Params Proof : Type}
    (generate_random_parameters : Messages -> Result Params SynthesisError)
    (create_random_proof : Messages -> Params -> Result Proof SynthesisError)
    (params_write : Params -> list byte) (params_read : list byte -> option Params)
    (proof_write : Proof -> list byte)
    (write_env : FileSystem -> string -> list byte -> write_outcome) (osrng_new_ok : bool)
    (messages : Messages) (out_dir : string) (fs : FileSystem) (hdr : CircuitHeader) :
  last_circuit messages = Some hdr ->
  hdr_witness_generation hdr = true ->
  hdr_r1cs_generation hdr = false ->
  fs !! path_join out_dir "key" = None ->
  zkif_backend generate_random_parameters create_random_proof params_write
    params_read proof_write write_env osrng_new_ok messages out_dir fs = (Err IoError, fs).
Proof.
  intros Hlast Hw Hr Hkey. unfold zkif_backend. rewrite Hlast.
  destruct osrng_new_ok; simpl; [|reflexivity].
  rewrite Hr, Hw. unfold prove_step. rewrite Hkey. reflexivity.
Qed.

Lemma prove_without_key_fails_witness :
  (last_circuit sample_messages =
     Some {| hdr_r1cs_generation := false; hdr_witness_generation := true |}) /\
  zkif_backend (Params:=unit) (Proof:=unit) (fun _ => Ok tt) (fun _ _ => Ok tt)
    (fun _ => [x01]) (fun _ => Some tt) (fun _ => [x02]) (fun _ _ _ => Written) true
    sample_messages "local" ∅ = (Err IoError, ∅).
Proof.
  split; [reflexivity|].
  apply (prove_without_key_fails (Params:=unit) (Proof:=unit) (fun _ => Ok tt) (fun _ _ => Ok tt)
           (fun _ => [x01]) (fun _ => Some tt) (fun _ => [x02]) (fun _ _ _ => Written) true
           sample_messages "local" ∅
           {| hdr_r1cs_generation := false; hdr_witness_generation := true |});
    reflexivity.
Defined.

(* ------------------------------------------------------------------ *)
(** ** Binding declared variables *)

(** A loop that allocates one variable per declaration and binds it to the
    declared id: every declaration is accepted, and each id ends up bound
    to the variable of its last declaration. *)
Lemma alloc_bind_spec `{PF : PrimeField} (alloc : Z -> M Var) (mk : nat -> Var)
    (cnt : state -> nat) (R : state -> state -> Prop) `{!PreOrder R} :
  (forall z s, exists s', alloc z s = (Ret (mk (cnt s)), s') /\
                          cnt s' = S (cnt s) /\ R s s') ->
  (forall ev s, cnt (snd (log ev s)) = cnt s /\ R s (snd (log ev s))) ->
  forall vars t s, exists t' s',
    mfold_left (fun t var =>
        let* v := alloc (le_to_fr (var_value var)) in
        tbl_insert t (var_id var) v) vars t s = (Ret t', s') /\
    cnt s' = (cnt s + length vars)%nat /\ R s s' /\
    forall k, t' !! k = match last_decl k vars with
                        | Some i => Some (mk (cnt s + i)%nat)
                        | None => t !! k
                        end.
Proof.
  intros Halloc Hlog vars. induction vars as [|v vs IH]; intros t s.
  - exists t, s. simpl. split; [reflexivity|]. split; [lia|]. split; [reflexivity|]. reflexivity.
  - destruct (Halloc (le_to_fr (var_value v)) s) as (s1 & E1 & C1 & R1).
    destruct (Hlog (Bind (var_id v) (mk (cnt s))) s1) as [C2 R2].
    set (s2 := snd (log (Bind (var_id v) (mk (cnt s))) s1)) in *.
    destruct (IH (<[var_id v := mk (cnt s)]> t) s2) as (t' & s' & E & C & R3 & L).
    exists t', s'. split; [|split; [|split]].
    + cbn [mfold_left]. rewrite mbind_assoc, (mbind_ret_eq _ _ _ _ _ E1).
      unfold tbl_insert. rewrite mbind_assoc. exact E.
    + rewrite C, C2, C1. simpl. lia.
    + etrans; [exact R1|]. etrans; [exact R2|]. exact R3.
    + intros k. rewrite L. simpl.
      destruct (last_decl k vs) as [i|].
      * rewrite C2, C1. f_equal. f_equal. lia.
      * destruct (decide (var_id v = k)) as [->|Hne].
        -- rewrite lookup_insert_eq. rewrite Nat.add_0_r. reflexivity.
        -- rewrite lookup_insert_ne by exact Hne. reflexivity.
Qed.

(** The constraint-system components a step leaves alone. *)
Definition keeps {X} (f : ConstraintSystem -> X) (s s' : state) : Prop :=
  f (st_cs s') = f (st_cs s).

#[export] Instance keeps_preorder {X} (f : ConstraintSystem -> X) : PreOrder (keeps f).
Proof. unfold keeps. split; [intros s; reflexivity | intros s1 s2 s3 H1 H2; congruence]. Qed.

Section Declared.
Context `{PF : PrimeField}.

Definition not_inputs (cs : ConstraintSystem) :=
  (cs_mode_of cs, cs_aux cs, cs_constraints cs).
Definition not_aux (cs : ConstraintSystem) :=
  (cs_mode_of cs, cs_inputs cs, cs_constraints cs).

Lemma alloc_publics_spec (t : gmap N Var) (vars : list WireVariable) (s : state) :
  exists t' s', alloc_publics t vars s = (Ret t', s') /\
    length (cs_inputs (st_cs s')) = (length (cs_inputs (st_cs s)) + length vars)%nat /\
    keeps not_inputs s s' /\
    forall k, t' !! k = match last_decl k vars with
                        | Some i => Some (Input (length (cs_inputs (st_cs s)) + i))
                        | None => t !! k
                        end.
Proof.
  unfold alloc_publics.
  apply (alloc_bind_spec cs_alloc_input Input (fun s => length (cs_inputs (st_cs s)))); [apply _| |].
  - intros z s0. eexists. split; [reflexivity|]. simpl.
    rewrite length_app. simpl. split; [lia | reflexivity].
  - intros ev s0. split; reflexivity.
Qed.

Lemma alloc_privates_spec (t : gmap N Var) (vars : list WireVariable) (s : state) :
  exists t' s', alloc_privates t vars s = (Ret t', s') /\
    length (cs_aux (st_cs s')) = (length (cs_aux (st_cs s)) + length vars)%nat /\
    keeps not_aux s s' /\
    forall k, t' !! k = match last_decl k vars with
                        | Some i => Some (Aux (length (cs_aux (st_cs s)) + i))
                        | None => t !! k
                        end.
Proof.
  unfold alloc_privates.
  apply (alloc_bind_spec cs_alloc Aux (fun s => length (cs_aux (st_cs s)))); [apply _| |].
  - intros z s0. eexists. split; [reflexivity|]. simpl.
    rewrite length_app. simpl. split; [lia | reflexivity].
  - intros ev s0. split; reflexivity.
Qed.

End Declared.

(** C8 (as the code does it): binding is [HashMap::insert], which never
    fails. Whatever ids the circuit declares, duplicates and id 0
    included, the table is built, and each id is bound to the variable of
    its last declaration (private variables after public ones); id 0 keeps
    the constant-one variable only when no declaration reuses it. *)
Theorem rebinding_replaces `{PF : PrimeField} (messages : Messages)
    (pubs privs : list WireVariable) (s : state) :
  msg_connection_variables messages = Some pubs ->
  msg_private_variables messages = Some privs ->
  exists t s', bind_declared messages s = (Ret t, s') /\
    forall k, t !! k =
      match last_decl k privs with
      | Some i => Some (Aux (length (cs_aux (st_cs s)) + i))
      | None =>
          match last_decl k pubs with
          | Some i => Some (Input (length (cs_inputs (st_cs s)) + i))
          | None => if decide (k = 0%N) then Some cs_one else None
          end
      end.
Proof.
  intros Hp Hq. unfold bind_declared, tbl_insert. rewrite Hp, Hq.
  cbn [mbind log mret mlift unwrap].
  match goal with |- context [mbind (alloc_publics ?t pubs) _ ?s1] =>
    destruct (alloc_publics_spec t pubs s1) as (t1 & s2 & E1 & _ & K1 & L1) end.
  rewrite (mbind_ret_eq _ _ _ _ _ E1), mbind_lift_ret.
  destruct (alloc_privates_spec t1 privs s2) as (t2 & s3 & E2 & _ & K2 & L2).
  exists t2, s3. split; [exact E2|].
  intros k. rewrite L2.
  assert (Haux : cs_aux (st_cs s2) = cs_aux (st_cs s))
    by (unfold keeps, not_inputs in K1; simpl in K1; congruence).
  rewrite Haux. destruct (last_decl k privs) as [i|]; [reflexivity|].
  rewrite L1. simpl. destruct (last_decl k pubs) as [i|]; [reflexivity|].
  destruct (decide (k = 0%N)) as [->|Hne].
  - apply lookup_insert_eq.
  - rewrite lookup_insert_ne by congruence. apply lookup_empty.
Qed.

Lemma rebinding_replaces_witness :
  exists t s', bind_declared rebind_zero_messages (start Proving) = (Ret t, s') /\
    t !! 0%N = Some (Input 1).
Proof.
  destruct (rebinding_replaces rebind_zero_messages [wv 0 [x07]] [] (start Proving)
              eq_refl eq_refl) as (t & s' & E & L).
  exists t, s'. split; [exact E|]. rewrite L. reflexivity.
Defined.

(** C8 refuted: declaring a variable with id 0 is accepted; id 0 now
    names that variable, so the constraint over id 0 is recorded over
    public input 1 rather than over the constant one. *)
Lemma rebind_zero_accepted :
  generate_constraints rebind_zero_messages (start Proving) =
  (Ret tt,
   mkState (mkCS Proving [Some 1; Some 7] []
              [([(Input 1, 1)], [(Input 1, 1)], [(Input 1, 1)])])
           [Bind 0 (Input 0); Bind 0 (Input 1); Resolve 0; Resolve 0; Resolve 0]).
Proof. vm_compute. reflexivity. Qed.

(* ------------------------------------------------------------------ *)
(** ** The phases of a gadget call *)

Lemma lookup_range_N (k i : nat) :
  (i < k)%nat -> range_N 1 (1 + N.of_nat k) !! i = Some (N.of_nat (S i)).
Proof.
  intros Hi. unfold range_N.
  replace (N.to_nat 1) with 1%nat by reflexivity.
  replace (N.to_nat (1 + N.of_nat k - 1)) with k by lia.
  rewrite list_lookup_fmap, lookup_seq_lt by exact Hi. simpl. f_equal.
Qed.

Section Phases.
Context `{PF : PrimeField}.

(** Seeding binds the reserved ids [a+1 .. a+m] to the inputs
    [a .. a+m-1], in order, and touches nothing else. *)
Lemma seed_fold (inputs : list FpGadget) (m a : nat) (t : gmap N Var) (s : state) :
  (a + m <= length inputs)%nat ->
  exists t' s',
    mfold_left (fun t i =>
        match range_N 1 (1 + N.of_nat (length inputs)) !! i, inputs !! i with
        | Some id, Some inp => tbl_insert t id (fp_variable inp)
        | _, _ => mlift Panic
        end) (seq a m) t s = (Ret t', s') /\
    st_cs s' = st_cs s /\
    forall j : N, t' !! j =
      if decide (a < N.to_nat j <= a + m)%nat
      then fp_variable <$> inputs !! (N.to_nat j - 1)%nat
      else t !! j.
Proof.
  revert a t s. induction m as [|m IH]; intros a t s Hlen.
  - exists t, s. split; [reflexivity|]. split; [reflexivity|].
    intros j. rewrite decide_False by lia. reflexivity.
  - destruct (lookup_lt_is_Some_2 inputs a ltac:(lia)) as [inp Hinp].
    cbn [seq mfold_left].
    rewrite (lookup_range_N (length inputs) a) by lia. rewrite Hinp.
    unfold tbl_insert. rewrite mbind_assoc.
    set (s1 := snd (log (Bind (N.of_nat (S a)) (fp_variable inp)) s)).
    destruct (IH (S a) (<[N.of_nat (S a) := fp_variable inp]> t) s1 ltac:(lia))
      as (t' & s' & E & C & L).
    exists t', s'. split; [exact E|]. split; [rewrite C; reflexivity|].
    intros j. rewrite L.
    destruct (decide (S a < N.to_nat j <= S a + m)%nat) as [H1|H1].
    + rewrite decide_True by lia. reflexivity.
    + destruct (decide (N.to_nat j = S a)) as [Hj|Hj].
      * rewrite decide_True by lia.
        replace j with (N.of_nat (S a)) by lia.
        rewrite lookup_insert_eq, Nat2N.id. simpl.
        rewrite Nat.sub_0_r, Hinp. reflexivity.
      * rewrite decide_False by lia.
        rewrite lookup_insert_ne by lia. reflexivity.
Qed.

Lemma seed_spec (inputs : list FpGadget) (s : state) :
  exists t s',
    seed_table (range_N 1 (1 + N.of_nat (length inputs))) inputs s = (Ret t, s') /\
    st_cs s' = st_cs s /\
    t !! 0%N = Some cs_one /\
    (forall i inp, inputs !! i = Some inp -> t !! N.of_nat (S i) = Some (fp_variable inp)) /\
    (forall j, (length inputs < N.to_nat j)%nat -> t !! j = None).
Proof.
  unfold seed_table, tbl_insert. rewrite mbind_assoc.
  set (s1 := snd (log (Bind 0 cs_one) s)).
  destruct (seed_fold inputs (length inputs) 0 (<[0%N := cs_one]> ∅) s1 ltac:(lia))
    as (t & s' & E & C & L).
  exists t, s'. split; [exact E|]. split; [exact C|]. split; [|split].
  - rewrite L. simpl. apply lookup_insert_eq.
  - intros i inp Hi. rewrite L. pose proof (lookup_lt_Some _ _ _ Hi).
    rewrite decide_True by lia. rewrite Nat2N.id. simpl. rewrite Nat.sub_0_r, Hi.
    reflexivity.
  - intros j Hj. rewrite L. rewrite decide_False by lia.
    rewrite lookup_insert_ne by lia. apply lookup_empty.
Qed.

End Phases.

Section Outputs.
Context `{PF : PrimeField}.

Lemma last_decl_None (k : N) (vars : list WireVariable) :
  last_decl k vars = None <-> k ∉ map var_id vars.
Proof.
  induction vars as [|v vs IH]; simpl.
  - split; [intros _; apply not_elem_of_nil | reflexivity].
  - rewrite elem_of_cons. destruct (last_decl k vs) as [i|].
    + split; [discriminate|]. intros H. exfalso. apply H. right.
      destruct (decide (k ∈ map var_id vs)) as [Hin|Hin]; [exact Hin|].
      apply IH in Hin. discriminate.
    + destruct (decide (var_id v = k)) as [Heq|Hne].
      * split; [discriminate|]. intros H. exfalso. apply H. left. congruence.
      * split; [|reflexivity]. intros _ [Hk|Hk]; [congruence|].
        apply (proj1 IH eq_refl). exact Hk.
Qed.

(** Allocating the declared outputs: every declaration is accepted, the
    returned gadgets are those of [declared_outputs] in order, and each
    output id is bound to the variable of its last declaration. *)
Lemma outputs_fold (outs : list WireVariable) (t : gmap N Var)
    (acc : list FpGadget) (s : state) :
  exists t' s',
    mfold_left (fun '(t, outputs) var =>
        let* num := fp_alloc (le_to_fr (var_value var)) in
        let* t := tbl_insert t (var_id var) (fp_variable num) in
        mret (t, outputs ++ [num])) outs (t, acc) s =
      (Ret (t', acc ++ declared_outputs (cs_mode_of (st_cs s))
                                         (length (cs_aux (st_cs s))) outs), s') /\
    length (cs_aux (st_cs s')) = (length (cs_aux (st_cs s)) + length outs)%nat /\
    keeps not_aux s s' /\
    forall k, t' !! k = match last_decl k outs with
                        | Some i => Some (Aux (length (cs_aux (st_cs s)) + i))
                        | None => t !! k
                        end.
Proof.
  revert t acc s. induction outs as [|o os IH]; intros t acc s.
  - exists t, s. simpl. rewrite app_nil_r.
    split; [reflexivity|]. split; [lia|]. split; [reflexivity|]. reflexivity.
  - cbn [mfold_left].
    match goal with |- context [mbind ?m (mfold_left _ os) s] =>
      destruct (m s) as [r s1] eqn:Hs end.
    pose proof Hs as Hs'. cbn in Hs. injection Hs as Hr Hs1. subst r s1.
    rewrite (mbind_ret_eq _ _ _ _ _ Hs').
    match goal with |- context [mfold_left _ os (?t1, ?acc1) ?s1] =>
      destruct (IH t1 acc1 s1) as (t' & s' & E & C & K & L) end.
    exists t', s'. split; [|split; [|split]].
    + rewrite E. cbn. rewrite length_app, <- app_assoc. simpl.
      rewrite Nat.add_1_r. reflexivity.
    + rewrite C. cbn. rewrite length_app. simpl. lia.
    + unfold keeps, not_aux in *. rewrite K. reflexivity.
    + intros k. rewrite L. cbn. rewrite length_app. simpl.
      destruct (last_decl k os) as [i|].
      * f_equal. f_equal. lia.
      * destruct (decide (var_id o = k)) as [<-|Hne].
        -- rewrite lookup_insert_eq, Nat.add_0_r. reflexivity.
        -- rewrite lookup_insert_ne by exact Hne. reflexivity.
Qed.

Lemma alloc_outputs_spec (outs : list WireVariable) (t : gmap N Var) (s : state) :
  exists t' s',
    alloc_outputs t (Some outs) s =
      (Ret (t', declared_outputs (cs_mode_of (st_cs s)) (length (cs_aux (st_cs s))) outs), s') /\
    length (cs_aux (st_cs s')) = (length (cs_aux (st_cs s)) + length outs)%nat /\
    keeps not_aux s s' /\
    forall k, t' !! k = match last_decl k outs with
                        | Some i => Some (Aux (length (cs_aux (st_cs s)) + i))
                        | None => t !! k
                        end.
Proof. apply (outputs_fold outs t []). Qed.

End Outputs.

Section Call.
Context `{PF : PrimeField}.

Lemma build_call_fields (inputs : list FpGadget) (call : CircuitOwned) :
  build_call inputs = Ret call ->
  variable_ids (connections call) = range_N 1 (1 + N.of_nat (length inputs)) /\
  free_variable_id call = (1 + N.of_nat (length inputs))%N.
Proof.
  unfold build_call. destruct (witness_generation_of inputs);
    [destruct (serialize_values inputs)|]; intros H; try discriminate;
    injection H as <-; split; reflexivity.
Qed.

Lemma range_N_seq (k : nat) : range_N 1 (1 + N.of_nat k) = map N.of_nat (seq 1 k).
Proof.
  unfold range_N. replace (N.to_nat (1 + N.of_nat k - 1)) with k by lia. reflexivity.
Qed.

(** What a call does once the external gadget answered with [messages],
    phase by phase, up to the enforcement of the constraints. *)
Lemma splice_phases (inputs : list FpGadget) (messages : Messages)
    (outs privs : list WireVariable) (s : state) :
  msg_connection_variables messages = Some outs ->
  msg_private_variables messages = Some privs ->
  exists t s3,
    (forall k, t !! k =
       match last_decl k privs with
       | Some i => Some (Aux (length (cs_aux (st_cs s)) + length outs + i))
       | None =>
           match last_decl k outs with
           | Some i => Some (Aux (length (cs_aux (st_cs s)) + i))
           | None =>
               if decide (k = 0%N) then Some cs_one
               else if decide (length inputs < N.to_nat k)%nat then None
               else fp_variable <$> inputs !! (N.to_nat k - 1)%nat
           end
       end) /\
    length (cs_aux (st_cs s3)) =
      (length (cs_aux (st_cs s)) + length outs + length privs)%nat /\
    cs_inputs (st_cs s3) = cs_inputs (st_cs s) /\
    forall call,
      variable_ids (connections call) = range_N 1 (1 + N.of_nat (length inputs)) ->
      splice inputs call messages s =
        mbind (enforce_all t (msg_constraints messages))
          (fun _ => mret (declared_outputs (cs_mode_of (st_cs s))
                                           (length (cs_aux (st_cs s))) outs)) s3.
Proof.
  intros Hconn Hpriv.
  destruct (seed_spec inputs s) as (t1 & s1 & E1 & C1 & H0 & Hin & Hout).
  destruct (alloc_outputs_spec outs t1 s1) as (t2 & s2 & E2 & A2 & K2 & L2).
  destruct (alloc_privates_spec t2 privs s2) as (t3 & s3 & E3 & A3 & K3 & L3).
  unfold keeps, not_aux in K2, K3. simpl in K2, K3.
  exists t3, s3. split; [|split; [|split]].
  - intros k. rewrite L3, A2, C1. destruct (last_decl k privs) as [i|];
      [reflexivity|]. rewrite L2, C1. destruct (last_decl k outs) as [i|];
      [reflexivity|].
    destruct (decide (k = 0%N)) as [->|Hk0]; [exact H0|].
    destruct (decide (length inputs < N.to_nat k)%nat) as [Hk|Hk]; [auto|].
    destruct (lookup_lt_is_Some_2 inputs (N.to_nat k - 1) ltac:(lia)) as [inp Hi].
    rewrite Hi. simpl. rewrite <- (Hin _ _ Hi). f_equal. lia.
  - rewrite A3, A2, C1. reflexivity.
  - injection K3 as _ K3 _. injection K2 as _ K2 _. rewrite K3, K2, C1. reflexivity.
  - intros call Hids. unfold splice. rewrite Hids.
    rewrite (mbind_ret_eq _ _ _ _ _ E1), Hconn, (mbind_ret_eq _ _ _ _ _ E2).
    cbv beta iota. rewrite Hpriv. cbn [unwrap].
    rewrite mbind_lift_ret, (mbind_ret_eq _ _ _ _ _ E3), C1. reflexivity.
Qed.

End Call.

(** C6: a gadget call with [k] inputs reserves exactly the ids [1..=k]
    for them and sets [free_variable_id = k+1]; the call's binding table
    is built from scratch (id 0 bound to the constant one, id [i] to the
    [i]-th input, nothing above [k]), so no id the caller bound can clash
    with it; and the returned output handles are the declared output
    variables in the order the response declared them. *)
Theorem call_gadget_reserves_ids `{PF : PrimeField}
    (circuit_write : CircuitOwned -> list byte) (inputs : list FpGadget)
    (exec_fn : list byte -> Result Messages string) (call : CircuitOwned) (s : state) :
  build_call inputs = Ret call ->
  variable_ids (connections call) = map N.of_nat (seq 1 (length inputs)) /\
  free_variable_id call = (N.of_nat (length inputs) + 1)%N /\
  (exists t s1,
     seed_table (variable_ids (connections call)) inputs s = (Ret t, s1) /\
     st_cs s1 = st_cs s /\
     t !! 0%N = Some cs_one /\
     (forall i inp, inputs !! i = Some inp -> t !! N.of_nat (S i) = Some (fp_variable inp)) /\
     (forall j, (length inputs < N.to_nat j)%nat -> t !! j = None)) /\
  (forall messages outs outputs s',
     exec_fn (circuit_write call) = Ok messages ->
     msg_connection_variables messages = Some outs ->
     call_gadget circuit_write inputs exec_fn s = (Ret outputs, s') ->
     outputs = declared_outputs (cs_mode_of (st_cs s)) (length (cs_aux (st_cs s))) outs).
Proof.
  intros Hb. destruct (build_call_fields inputs call Hb) as [Hids Hfree].
  split; [rewrite Hids; apply range_N_seq|].
  split; [rewrite Hfree; lia|].
  split; [rewrite Hids; apply seed_spec|].
  intros messages outs outputs s' Hexec Hconn Hrun.
  unfold call_gadget in Hrun. rewrite Hb, mbind_lift_ret, Hexec, mbind_lift_ret in Hrun.
  destruct (msg_private_variables messages) as [privs|] eqn:Hpriv.
  - destruct (splice_phases inputs messages outs privs s Hconn Hpriv)
      as (t & s3 & _ & _ & _ & Hsp).
    rewrite (Hsp call Hids) in Hrun. unfold mbind in Hrun.
    destruct (enforce_all t (msg_constraints messages) s3) as [[u|e|] s4];
      unfold mret in Hrun; simpl in Hrun; congruence.
  - exfalso. unfold splice in Hrun. rewrite Hids in Hrun.
    destruct (seed_spec inputs s) as (t1 & s1 & E1 & _).
    destruct (alloc_outputs_spec outs t1 s1) as (t2 & s2 & E2 & _).
    rewrite (mbind_ret_eq _ _ _ _ _ E1), Hconn, (mbind_ret_eq _ _ _ _ _ E2) in Hrun.
    cbv beta iota in Hrun. rewrite Hpriv in Hrun. cbn in Hrun. discriminate.
Qed.

(** The call message for two inputs: ids 1 and 2 reserved, 3 free. *)
Lemma call_gadget_reserves_ids_witness :
  build_call (PF := bls12_381_fr) two_inputs = Ret two_call /\
  variable_ids (connections two_call) = [1%N; 2%N] /\
  free_variable_id two_call = 3%N.
Proof.
  split; [reflexivity|].
  destruct (call_gadget_reserves_ids (PF := bls12_381_fr) write_nothing two_inputs
              exec_empty two_call (start Proving) eq_refl) as (H1 & H2 & _).
  split; [exact H1 | exact H2].
Defined.

Lemma enforce_not_fail `{PF : PrimeField} (vars : gmap N Var) (c : Constraint)
    (s : state) (e : SynthesisError) :
  fst (enforce vars c s) <> Fail e.
Proof.
  destruct (enforce_spec vars c s) as [Hb Hu].
  assert (Hd : Decision (all_bound vars c)) by (unfold all_bound; apply _).
  destruct (decide (all_bound vars c)) as [H|H].
  - destruct (Hb H) as (lcs & s' & E & _). rewrite E. discriminate.
  - rewrite (proj1 (Hu H)). discriminate.
Qed.

Lemma last_decl_Some (k : N) (vars : list WireVariable) (i : nat) :
  last_decl k vars = Some i -> k ∈ map var_id vars.
Proof.
  intros H. destruct (decide (k ∈ map var_id vars)) as [Hin|Hn]; [exact Hin|].
  apply last_decl_None in Hn. congruence.
Qed.

(** C1 is refuted as stated: a gadget whose constraint names an
    undeclared id makes the call panic after its output variable was
    already allocated in the caller's constraint system. *)
Lemma undeclared_constraint_partial_merge :
  fst (call_gadget (PF := bls12_381_fr) write_nothing [] exec_undeclared (start Proving))
    = Panic /\
  cs_aux (st_cs (snd (call_gadget (PF := bls12_381_fr) write_nothing [] exec_undeclared
                        (start Proving)))) = [Some 5] /\
  cs_aux (st_cs (start Proving)) = [].
Proof. vm_compute. split; [reflexivity | split; reflexivity]. Qed.

(* ================================================================== *)
(** * Further properties of the code *)

(* ------------------------------------------------------------------ *)
(** ** The field codec *)

Lemma byte_to_Z_x00 : byte_to_Z x00 = 0.
Proof. reflexivity. Qed.

Lemma le_bytes_to_Z_nonneg (bs : list byte) : 0 <= le_bytes_to_Z bs.
Proof. pose proof (le_bytes_to_Z_range bs). lia. Qed.

Lemma pow_8_succ (n : nat) : 2 ^ (8 * Z.of_nat (S n)) = 256 * 2 ^ (8 * Z.of_nat n).
Proof.
  rewrite Nat2Z.inj_succ, Z.mul_succ_r, Z.pow_add_r by lia.
  rewrite Z.mul_comm. reflexivity.
Qed.

Lemma pow_8_le (m n : nat) : (m <= n)%nat -> 2 ^ (8 * Z.of_nat m) <= 2 ^ (8 * Z.of_nat n).
Proof. intros H. apply Z.pow_le_mono_r; lia. Qed.

Lemma le_bytes_to_Z_app (l1 l2 : list byte) :
  le_bytes_to_Z (l1 ++ l2) =
    le_bytes_to_Z l1 + 2 ^ (8 * Z.of_nat (length l1)) * le_bytes_to_Z l2.
Proof.
  induction l1 as [|b l1 IH]; simpl.
  - lia.
  - rewrite IH, pow_8_succ. ring.
Qed.

Lemma le_bytes_to_Z_replicate_x00 (n : nat) : le_bytes_to_Z (replicate n x00) = 0.
Proof. induction n as [|n IH]; simpl; [reflexivity|]. rewrite IH, byte_to_Z_x00. lia. Qed.

(** Padding with zeros or truncating to [n] bytes keeps the value modulo
    [2^(8n)]. *)
Lemma le_bytes_to_Z_resize (n : nat) (bs : list byte) :
  le_bytes_to_Z (resize n x00 bs) = le_bytes_to_Z bs mod 2 ^ (8 * Z.of_nat n).
Proof.
  destruct (Nat.le_ge_cases (length bs) n) as [H|H].
  - rewrite resize_ge by exact H.
    rewrite le_bytes_to_Z_app, le_bytes_to_Z_replicate_x00, Z.mul_0_r, Z.add_0_r.
    pose proof (le_bytes_to_Z_range bs). pose proof (pow_8_le _ _ H).
    rewrite Z.mod_small by lia. reflexivity.
  - rewrite resize_le by exact H.
    rewrite <- (take_drop n bs) at 2.
    rewrite le_bytes_to_Z_app, length_take, Nat.min_l by exact H.
    pose proof (le_bytes_to_Z_range (take n bs)) as Hr.
    rewrite length_take, Nat.min_l in Hr by exact H.
    rewrite Z.mul_comm, Z_mod_plus_full, Z.mod_small by lia. reflexivity.
Qed.

Section CodecMore.
Context `{PF : PrimeField}.

Lemma from_repr_0 : from_repr 0 = 0.
Proof. unfold from_repr, fr_zero. destruct (_ && _); reflexivity. Qed.

(** [le_to_fr] reads the value of the whole buffer modulo [2^(8*8*words)]
    (the empty buffer included). *)
Lemma le_to_fr_eq (bs : list byte) :
  le_to_fr bs =
    from_repr (le_bytes_to_Z bs mod 2 ^ (8 * Z.of_nat (Z.to_nat (8 * words)))).
Proof.
  destruct bs as [|b bs]; unfold le_to_fr.
  - simpl. rewrite Z.mod_0_l by (apply Z.pow_nonzero; lia).
    rewrite from_repr_0. reflexivity.
  - rewrite le_bytes_to_Z_resize. reflexivity.
Qed.

Lemma fr_to_le_decodes (x : Z) :
  0 < size_in_bits -> modulus <= 2 ^ size_in_bits -> valid_fr x ->
  le_to_fr (fr_to_le x) = x.
Proof.
  intros Hbits Hmod [Hx0 Hx1].
  destruct (bits_le_limbs Hbits) as [Hw Hwb].
  rewrite le_to_fr_eq. unfold fr_to_le, into_repr.
  rewrite le_bytes_to_Z_of_Z, Z.mod_mod by (apply Z.pow_nonzero; lia).
  rewrite Z.mod_small.
  - unfold from_repr.
    replace ((0 <=? x) && (x <? modulus)) with true
      by (symmetry; apply andb_true_iff; split; [apply Z.leb_le | apply Z.ltb_lt]; lia).
    reflexivity.
  - split; [lia|].
    apply (Z.lt_le_trans _ modulus); [lia|].
    apply (Z.le_trans _ (2 ^ size_in_bits)); [lia|].
    apply Z.pow_le_mono_r; lia.
Qed.

Lemma length_fr_to_le (x : Z) : length (fr_to_le x) = Z.to_nat (8 * words).
Proof. apply length_Z_to_le_bytes. Qed.

End CodecMore.

(** Trailing zero bytes never change the decoded value: appending zeros
    to a buffer (the empty one included) decodes to the same element. *)
Theorem le_to_fr_zero_extend `{PF : PrimeField} (bs : list byte) (n : nat) :
  le_to_fr (bs ++ replicate n x00) = le_to_fr bs.
Proof.
  rewrite !le_to_fr_eq, le_bytes_to_Z_app, le_bytes_to_Z_replicate_x00.
  rewrite Z.mul_0_r, Z.add_0_r. reflexivity.
Qed.

(** Only the first [8 * words] bytes count: once a buffer has that many,
    whatever follows is cut off by the [resize] and ignored. *)
Theorem le_to_fr_ignores_excess `{PF : PrimeField} (bs extra : list byte) :
  (Z.to_nat (8 * words) <= length bs)%nat ->
  le_to_fr (bs ++ extra) = le_to_fr bs.
Proof.
  intros H. rewrite !le_to_fr_eq, le_bytes_to_Z_app.
  set (n := Z.to_nat (8 * words)) in *.
  replace (2 ^ (8 * Z.of_nat (length bs)))
    with (2 ^ (8 * Z.of_nat (length bs - n)) * 2 ^ (8 * Z.of_nat n))
    by (rewrite <- Z.pow_add_r by lia; f_equal; lia).
  replace (le_bytes_to_Z bs +
           2 ^ (8 * Z.of_nat (length bs - n)) * 2 ^ (8 * Z.of_nat n) * le_bytes_to_Z extra)
    with (le_bytes_to_Z bs +
          (2 ^ (8 * Z.of_nat (length bs - n)) * le_bytes_to_Z extra) * 2 ^ (8 * Z.of_nat n))
    by ring.
  rewrite Z_mod_plus_full. reflexivity.
Qed.

Lemma le_to_fr_ignores_excess_witness :
  (Z.to_nat (8 * words) <= length (replicate 32 x01))%nat /\
  le_to_fr (replicate 32 x01 ++ [xff; xff]) = le_to_fr (replicate 32 x01).
Proof.
  assert (H : (Z.to_nat (8 * words) <= length (replicate 32 x01))%nat)
    by (vm_compute; lia).
  split; [exact H | exact (le_to_fr_ignores_excess _ [xff; xff] H)].
Defined.

(** A buffer no longer than [8 * words] bytes whose little-endian value
    is below the modulus decodes to exactly that value. *)
Theorem le_to_fr_in_range `{PF : PrimeField} (bs : list byte) :
  (length bs <= Z.to_nat (8 * words))%nat ->
  le_bytes_to_Z bs < modulus ->
  le_to_fr bs = le_bytes_to_Z bs.
Proof.
  intros Hl Hm. rewrite le_to_fr_eq.
  pose proof (le_bytes_to_Z_range bs). pose proof (pow_8_le _ _ Hl).
  rewrite Z.mod_small by lia.
  unfold from_repr.
  replace ((0 <=? le_bytes_to_Z bs) && (le_bytes_to_Z bs <? modulus)) with true
    by (symmetry; apply andb_true_iff; split; [apply Z.leb_le | apply Z.ltb_lt]; lia).
  reflexivity.
Qed.

Lemma le_to_fr_in_range_witness :
  ((length [x01; x02] <= Z.to_nat (8 * words))%nat /\ le_bytes_to_Z [x01; x02] < modulus) /\
  le_to_fr [x01; x02] = 513.
Proof.
  assert (H : (length [x01; x02] <= Z.to_nat (8 * words))%nat /\
              le_bytes_to_Z [x01; x02] < modulus) by (vm_compute; split; [lia | reflexivity]).
  split; [exact H|].
  rewrite (le_to_fr_in_range [x01; x02] (proj1 H) (proj2 H)). reflexivity.
Defined.

(* ------------------------------------------------------------------ *)
(** ** The values of the call message *)

Lemma flat_map_uniform {A B} (g : A -> list B) (n : nat) (l : list A) :
  Forall (fun x => length (g x) = n) l ->
  length (flat_map g l) = (length l * n)%nat /\
  forall i, drop (i * n) (flat_map g l) = flat_map g (drop i l).
Proof.
  induction 1 as [|x l Hx _ [IHl IHd]]; simpl.
  - split; [reflexivity|]. intros i. rewrite !drop_nil. reflexivity.
  - split; [rewrite length_app, IHl; lia|].
    intros [|j]; [reflexivity|]. simpl.
    replace (n + j * n)%nat with (length (g x) + j * n)%nat by lia.
    rewrite drop_app_add. apply IHd.
Qed.

(** In witness mode the call message carries [8 * words] bytes per input,
    and the [i]-th block decodes (with [le_to_fr], as the gadget side
    reads it) to the value of the [i]-th input. *)
Theorem build_call_values_decode `{PF : PrimeField} (inputs : list FpGadget) :
  0 < size_in_bits -> modulus <= 2 ^ size_in_bits -> inputs <> [] ->
  Forall (fun i => exists v, fp_value i = Some v /\ valid_fr v) inputs ->
  exists call bs, build_call inputs = Ret call /\
    values (connections call) = Some bs /\
    length bs = (length inputs * Z.to_nat (8 * words))%nat /\
    forall i inp v, inputs !! i = Some inp -> fp_value inp = Some v ->
      le_to_fr (take (Z.to_nat (8 * words)) (drop (i * Z.to_nat (8 * words)) bs)) = v.
Proof.
  intros Hbits Hmod Hne Hall.
  assert (Hsome : Forall (fun i => is_Some (fp_value i)) inputs).
  { eapply Forall_impl; [exact Hall|]. intros i (v & Hv & _). rewrite Hv. eauto. }
  set (g := fun i => from_option fr_to_le [] (fp_value i)).
  assert (Hlen : Forall (fun i => length (g i) = Z.to_nat (8 * words)) inputs).
  { eapply Forall_impl; [exact Hall|]. intros i (v & Hv & _).
    unfold g. rewrite Hv. apply length_fr_to_le. }
  destruct (flat_map_uniform g _ inputs Hlen) as [HL HD].
  destruct inputs as [|i0 rest]; [contradiction|].
  unfold build_call, witness_generation_of.
  rewrite bool_decide_true by exact (Forall_inv Hsome).
  rewrite serialize_values_all by exact Hsome.
  eexists _, _. split; [reflexivity|]. split; [reflexivity|].
  split; [exact HL|].
  intros i inp v Hi Hv. fold g. rewrite HD, (drop_S _ _ _ Hi). simpl.
  rewrite take_app_length'.
  - unfold g. rewrite Hv. simpl.
    destruct (Forall_lookup_1 _ _ _ _ Hall Hi) as (v' & Hv' & Hval).
    rewrite Hv in Hv'. injection Hv' as <-.
    apply fr_to_le_decodes; assumption.
  - symmetry. exact (Forall_lookup_1 _ _ _ _ Hlen Hi).
Qed.

Lemma build_call_values_decode_witness :
  (0 < size_in_bits /\ modulus <= 2 ^ size_in_bits /\
   [gadget (Some 5) 0; gadget (Some 6) 1] <> [] /\
   Forall (fun i => exists v, fp_value i = Some v /\ valid_fr v)
     [gadget (Some 5) 0; gadget (Some 6) 1]) /\
  exists call bs, build_call [gadget (Some 5) 0; gadget (Some 6) 1] = Ret call /\
    values (connections call) = Some bs /\ length bs = 64%nat.
Proof.
  assert (H : 0 < size_in_bits /\ modulus <= 2 ^ size_in_bits /\
              [gadget (Some 5) 0; gadget (Some 6) 1] <> [] /\
              Forall (fun i => exists v, fp_value i = Some v /\ valid_fr v)
                [gadget (Some 5) 0; gadget (Some 6) 1]).
  { split; [simpl; lia|]. split; [vm_compute; discriminate|]. split; [discriminate|].
    repeat constructor; eexists; (split; [reflexivity | unfold valid_fr; simpl; lia]). }
  split; [exact H|].
  destruct H as (H1 & H2 & H3 & H4).
  destruct (build_call_values_decode _ H1 H2 H3 H4) as (call & bs & E & V & L & _).
  exists call, bs. split; [exact E|]. split; [exact V|]. rewrite L. reflexivity.
Defined.

(* ------------------------------------------------------------------ *)
(** ** Translating terms and constraints *)

Section Translate.
Context `{PF : PrimeField}.

Lemma terms_to_lc_ok (vars : gmap N Var) (terms : list Term) (s : state) :
  Forall (fun t => is_Some (vars !! term_id t)) terms ->
  exists lc, terms_to_lc vars terms s =
    (Ret lc, mkState (st_cs s) (st_trace s ++ map (fun t => Resolve (term_id t)) terms)) /\
    Forall2 (term_translates vars) terms lc.
Proof.
  intros Hall. unfold terms_to_lc.
  match goal with |- context [mfold_left ?F terms _ s] => set (f := F) end.
  cut (forall acc s0, exists lc, mfold_left f terms acc s0 =
    (Ret (acc ++ lc),
     mkState (st_cs s0) (st_trace s0 ++ map (fun t => Resolve (term_id t)) terms)) /\
    Forall2 (term_translates vars) terms lc).
  { intros H. destruct (H [] s) as (lc & E & F). exists lc. split; [exact E | exact F]. }
  induction Hall as [|t ts [v Hv] _ IH]; intros acc s0.
  - exists []. rewrite !app_nil_r. destruct s0. split; [reflexivity | constructor].
  - change (mfold_left f (t :: ts) acc s0) with (mbind (f acc t) (mfold_left f ts) s0).
    assert (Hstep : f acc t s0 =
      (Ret (acc ++ [(v, le_to_fr (term_value t))]),
       mkState (st_cs s0) (st_trace s0 ++ [Resolve (term_id t)]))).
    { unfold f, mbind, tbl_get, log, mlift, unwrap. simpl. rewrite Hv. reflexivity. }
    rewrite (mbind_ret_eq _ _ _ _ _ Hstep).
    destruct (IH (acc ++ [(v, le_to_fr (term_value t))])
                 (mkState (st_cs s0) (st_trace s0 ++ [Resolve (term_id t)])))
      as (lc & E & F).
    exists ((v, le_to_fr (term_value t)) :: lc). rewrite E. simpl. split.
    + rewrite <- !app_assoc. reflexivity.
    + constructor; [split; [exact Hv | reflexivity] | exact F].
Qed.

Lemma enforce_ok (vars : gmap N Var) (c : Constraint) (s : state) :
  all_bound vars c ->
  exists l s', enforce vars c s = (Ret tt, s') /\
    st_cs s' = mkCS (cs_mode_of (st_cs s)) (cs_inputs (st_cs s)) (cs_aux (st_cs s))
                    (cs_constraints (st_cs s) ++ [l]) /\
    constraint_translates vars c l.
Proof.
  unfold all_bound. rewrite !Forall_app. intros (Ha & Hb & Hc).
  unfold enforce, cs_enforce.
  destruct (terms_to_lc_ok vars (con_a c) s Ha) as (la & Ea & Fa).
  rewrite (mbind_ret_eq _ _ _ _ _ Ea).
  match goal with |- context [mbind (terms_to_lc vars (con_b c)) _ ?s1] =>
    destruct (terms_to_lc_ok vars (con_b c) s1 Hb) as (lb & Eb & Fb) end.
  rewrite (mbind_ret_eq _ _ _ _ _ Eb).
  match goal with |- context [mbind (terms_to_lc vars (con_c c)) _ ?s1] =>
    destruct (terms_to_lc_ok vars (con_c c) s1 Hc) as (lc & Ec & Fc) end.
  rewrite (mbind_ret_eq _ _ _ _ _ Ec).
  eexists (la, lb, lc), _. split; [reflexivity|]. split; [reflexivity|].
  split; [exact Fa | split; [exact Fb | exact Fc]].
Qed.

Lemma enforce_all_ok (vars : gmap N Var) (cs : list Constraint) (s : state) :
  Forall (all_bound vars) cs ->
  exists ls s', enforce_all vars cs s = (Ret tt, s') /\
    st_cs s' = mkCS (cs_mode_of (st_cs s)) (cs_inputs (st_cs s)) (cs_aux (st_cs s))
                    (cs_constraints (st_cs s) ++ ls) /\
    Forall2 (constraint_translates vars) cs ls.
Proof.
  unfold enforce_all. intros Hall. revert s.
  induction Hall as [|c cs Hc _ IH]; intros s.
  - exists [], s. rewrite app_nil_r. destruct s as [[] tr]. simpl.
    split; [reflexivity | split; [reflexivity | constructor]].
  - cbn [mfold_left].
    destruct (enforce_ok vars c s Hc) as (l & s1 & E1 & C1 & T1).
    rewrite (mbind_ret_eq _ _ _ _ _ E1).
    destruct (IH s1) as (ls & s' & E & C & T).
    exists (l :: ls), s'. split; [exact E|]. split.
    + rewrite C, C1. simpl. rewrite <- app_assoc. reflexivity.
    + constructor; assumption.
Qed.

Lemma enforce_all_prefix (vars : gmap N Var) (pre post : list Constraint)
    (c : Constraint) (s : state) :
  Forall (all_bound vars) pre -> ~ all_bound vars c ->
  fst (enforce_all vars (pre ++ c :: post) s) = Panic /\
  exists ls, st_cs (snd (enforce_all vars (pre ++ c :: post) s)) =
    mkCS (cs_mode_of (st_cs s)) (cs_inputs (st_cs s)) (cs_aux (st_cs s))
         (cs_constraints (st_cs s) ++ ls) /\
    Forall2 (constraint_translates vars) pre ls.
Proof.
  unfold enforce_all. intros Hall Hc. revert s.
  induction Hall as [|c0 cs Hc0 _ IH]; intros s.
  - simpl. destruct (proj2 (enforce_spec vars c s) Hc) as [P C].
    unfold mbind. destruct (enforce vars c s) as [o s1]. simpl in P, C. subst o.
    split; [reflexivity|]. exists []. simpl. rewrite app_nil_r, C.
    destruct (st_cs s). split; [reflexivity | constructor].
  - cbn [app mfold_left].
    destruct (enforce_ok vars c0 s Hc0) as (l & s1 & E1 & C1 & T1).
    rewrite (mbind_ret_eq _ _ _ _ _ E1).
    destruct (IH s1) as [P (ls & C & T)].
    split; [exact P|]. exists (l :: ls). split.
    + rewrite C, C1. simpl. rewrite <- app_assoc. reflexivity.
    + constructor; assumption.
Qed.

End Translate.

(** [terms_to_lc] over bound ids succeeds, resolves the ids one table
    lookup per term in order, leaves the constraint system alone, and
    yields one (variable, coefficient) pair per term, in the order of the
    terms (repeated ids are not merged). *)
Theorem terms_to_lc_translate `{PF : PrimeField} (vars : gmap N Var)
    (terms : list Term) (s : state) :
  Forall (fun t => is_Some (vars !! term_id t)) terms ->
  exists lc, terms_to_lc vars terms s =
    (Ret lc, mkState (st_cs s) (st_trace s ++ map (fun t => Resolve (term_id t)) terms)) /\
    Forall2 (term_translates vars) terms lc.
Proof. apply terms_to_lc_ok. Qed.

Lemma terms_to_lc_translate_witness :
  Forall (fun t => is_Some (one_table !! term_id t)) [tm 0; tm 0] /\
  exists lc, terms_to_lc one_table [tm 0; tm 0] (start Setup) =
    (Ret lc, mkState (st_cs (start Setup)) [Resolve 0; Resolve 0]) /\
    Forall2 (term_translates one_table) [tm 0; tm 0] lc.
Proof.
  assert (H : Forall (fun t => is_Some (one_table !! term_id t)) [tm 0; tm 0])
    by (repeat constructor; eexists; reflexivity).
  split; [exact H|]. exact (terms_to_lc_translate one_table _ (start Setup) H).
Defined.

(** When every constraint names only bound ids, the enforcement loop
    succeeds and appends exactly one translated constraint per input
    constraint, in order, after the existing ones; it allocates nothing. *)
Theorem enforce_all_appends `{PF : PrimeField} (vars : gmap N Var)
    (cs : list Constraint) (s : state) :
  Forall (all_bound vars) cs ->
  exists ls s', enforce_all vars cs s = (Ret tt, s') /\
    st_cs s' = mkCS (cs_mode_of (st_cs s)) (cs_inputs (st_cs s)) (cs_aux (st_cs s))
                    (cs_constraints (st_cs s) ++ ls) /\
    Forall2 (constraint_translates vars) cs ls.
Proof. apply enforce_all_ok. Qed.

Lemma enforce_all_appends_witness :
  Forall (all_bound one_table) [c_one; c_one] /\
  exists ls s', enforce_all one_table [c_one; c_one] (start Setup) = (Ret tt, s') /\
    st_cs s' = mkCS Setup [Some 1] [] ([] ++ ls) /\
    Forall2 (constraint_translates one_table) [c_one; c_one] ls.
Proof.
  assert (H : Forall (all_bound one_table) [c_one; c_one])
    by (repeat constructor; apply (bool_decide_unpack _); vm_compute; exact I).
  split; [exact H|]. exact (enforce_all_appends one_table _ (start Setup) H).
Defined.

(** The enforcement loop is not atomic: at the first constraint naming an
    unbound id it panics, and the constraints before it stay recorded. *)
Theorem enforce_all_keeps_prefix `{PF : PrimeField} (vars : gmap N Var)
    (pre post : list Constraint) (c : Constraint) (s : state) :
  Forall (all_bound vars) pre -> ~ all_bound vars c ->
  fst (enforce_all vars (pre ++ c :: post) s) = Panic /\
  exists ls, st_cs (snd (enforce_all vars (pre ++ c :: post) s)) =
    mkCS (cs_mode_of (st_cs s)) (cs_inputs (st_cs s)) (cs_aux (st_cs s))
         (cs_constraints (st_cs s) ++ ls) /\
    Forall2 (constraint_translates vars) pre ls.
Proof. apply enforce_all_prefix. Qed.

Lemma enforce_all_keeps_prefix_witness :
  (Forall (all_bound one_table) [c_one] /\ ~ all_bound one_table c_unbound) /\
  fst (enforce_all one_table ([c_one] ++ c_unbound :: [c_one]) (start Setup)) = Panic.
Proof.
  assert (H1 : Forall (all_bound one_table) [c_one])
    by (repeat constructor; apply (bool_decide_unpack _); vm_compute; exact I).
  assert (H2 : ~ all_bound one_table c_unbound)
    by (intros H; apply (bool_decide_pack _) in H; vm_compute in H; exact H).
  split; [split; assumption|].
  exact (proj1 (enforce_all_keeps_prefix one_table [c_one] [c_one] c_unbound
                  (start Setup) H1 H2)).
Defined.

(* ------------------------------------------------------------------ *)
(** ** The synthesis driver *)

Section Driver.
Context `{PF : PrimeField}.

Lemma publics_values (vars : list WireVariable) (t : gmap N Var) (s : state) :
  exists t' s', alloc_publics t vars s = (Ret t', s') /\
    st_cs s' = mkCS (cs_mode_of (st_cs s))
      (cs_inputs (st_cs s) ++
         map (fun v => recorded (cs_mode_of (st_cs s)) (le_to_fr (var_value v))) vars)
      (cs_aux (st_cs s)) (cs_constraints (st_cs s)).
Proof.
  unfold alloc_publics. revert t s. induction vars as [|v vs IH]; intros t s.
  - exists t, s. rewrite app_nil_r. destruct s as [[] tr]. split; reflexivity.
  - cbn [mfold_left mbind cs_alloc_input tbl_insert log mret].
    match goal with |- context [mfold_left _ vs ?t1 ?s1] =>
      destruct (IH t1 s1) as (t' & s' & E & C) end.
    exists t', s'. split; [exact E|]. rewrite C. simpl. rewrite <- app_assoc. reflexivity.
Qed.

Lemma privates_values (vars : list WireVariable) (t : gmap N Var) (s : state) :
  exists t' s', alloc_privates t vars s = (Ret t', s') /\
    st_cs s' = mkCS (cs_mode_of (st_cs s)) (cs_inputs (st_cs s))
      (cs_aux (st_cs s) ++
         map (fun v => recorded (cs_mode_of (st_cs s)) (le_to_fr (var_value v))) vars)
      (cs_constraints (st_cs s)).
Proof.
  unfold alloc_privates. revert t s. induction vars as [|v vs IH]; intros t s.
  - exists t, s. rewrite app_nil_r. destruct s as [[] tr]. split; reflexivity.
  - cbn [mfold_left mbind cs_alloc tbl_insert log mret].
    match goal with |- context [mfold_left _ vs ?t1 ?s1] =>
      destruct (IH t1 s1) as (t' & s' & E & C) end.
    exists t', s'. split; [exact E|]. rewrite C. simpl. rewrite <- app_assoc. reflexivity.
Qed.

Lemma bind_declared_run (messages : Messages) (pubs privs : list WireVariable) (s : state) :
  msg_connection_variables messages = Some pubs ->
  msg_private_variables messages = Some privs ->
  exists t s', bind_declared messages s = (Ret t, s') /\
    st_cs s' = mkCS (cs_mode_of (st_cs s))
      (cs_inputs (st_cs s) ++
         map (fun v => recorded (cs_mode_of (st_cs s)) (le_to_fr (var_value v))) pubs)
      (cs_aux (st_cs s) ++
         map (fun v => recorded (cs_mode_of (st_cs s)) (le_to_fr (var_value v))) privs)
      (cs_constraints (st_cs s)) /\
    forall k, is_Some (t !! k) <-> driver_declared pubs privs k.
Proof.
  intros Hp Hq. unfold bind_declared, tbl_insert. rewrite Hp, Hq.
  cbn [mbind log mret mlift unwrap].
  match goal with |- context [mbind (alloc_publics ?t pubs) _ ?s1] =>
    destruct (alloc_publics_spec t pubs s1) as (t1 & s2 & E1 & _ & _ & L1);
    destruct (publics_values pubs t s1) as (t1' & s2' & E1' & C1) end.
  rewrite E1 in E1'. injection E1' as <- <-.
  rewrite (mbind_ret_eq _ _ _ _ _ E1), mbind_lift_ret.
  destruct (alloc_privates_spec t1 privs s2) as (t2 & s3 & E2 & _ & _ & L2).
  destruct (privates_values privs t1 s2) as (t2' & s3' & E2' & C2).
  rewrite E2 in E2'. injection E2' as <- <-.
  exists t2, s3. split; [exact E2|]. split.
  - rewrite C2, C1. reflexivity.
  - intros k. rewrite L2. unfold driver_declared.
    destruct (last_decl k privs) as [i|] eqn:Hi.
    { split; [intros _; right; right; eapply last_decl_Some; exact Hi | eauto]. }
    apply last_decl_None in Hi.
    rewrite L1. destruct (last_decl k pubs) as [i|] eqn:Hj.
    { split; [intros _; right; left; eapply last_decl_Some; exact Hj | eauto]. }
    apply last_decl_None in Hj. simpl.
    destruct (decide (k = 0%N)) as [->|Hne].
    + rewrite lookup_insert_eq. split; [intros _; left; reflexivity | eauto].
    + rewrite lookup_insert_ne by congruence. rewrite lookup_empty.
      split; [intros [? H]; discriminate | intros [H|[H|H]]; contradiction].
Qed.

End Driver.

(** The synthesis driver unwraps the two variable sections: without a
    connection section it panics right after binding id 0, having
    allocated nothing; without a private section it panics after all
    public inputs were allocated. *)
Theorem generate_constraints_missing_sections `{PF : PrimeField}
    (messages : Messages) (s : state) :
  (msg_connection_variables messages = None ->
   generate_constraints messages s =
     (Panic, mkState (st_cs s) (st_trace s ++ [Bind 0 cs_one]))) /\
  (forall pubs, msg_connection_variables messages = Some pubs ->
   msg_private_variables messages = None ->
   exists s', generate_constraints messages s = (Panic, s') /\
     st_cs s' = mkCS (cs_mode_of (st_cs s))
       (cs_inputs (st_cs s) ++
          map (fun v => recorded (cs_mode_of (st_cs s)) (le_to_fr (var_value v))) pubs)
       (cs_aux (st_cs s)) (cs_constraints (st_cs s))).
Proof.
  split.
  - intros Hp. unfold generate_constraints, bind_declared, tbl_insert. rewrite Hp.
    reflexivity.
  - intros pubs Hp Hq. unfold generate_constraints, bind_declared, tbl_insert.
    rewrite Hp, Hq, !mbind_assoc. cbn [mbind log mret mlift unwrap].
    rewrite !mbind_assoc, mbind_lift_ret, !mbind_assoc.
    match goal with |- context [mbind (alloc_publics ?t pubs) _ ?s1] =>
      destruct (publics_values pubs t s1) as (t1 & s2 & E1 & C1) end.
    rewrite (mbind_ret_eq _ _ _ _ _ E1). exists s2. split; [reflexivity|]. rewrite C1. reflexivity.
Qed.

Lemma generate_constraints_missing_sections_witness :
  generate_constraints empty_response (start Setup) =
    (Ret tt, mkState (empty_cs Setup) [Bind 0 cs_one]) /\
  exists s', generate_constraints
      {| msg_circuits := []; msg_connection_variables := Some [wv 1 [x03]];
         msg_private_variables := None; msg_constraints := [] |} (start Proving) =
    (Panic, s') /\ st_cs s' = mkCS Proving [Some 1; Some 3] [] [].
Proof.
  split; [reflexivity|].
  destruct (proj2 (generate_constraints_missing_sections
      {| msg_circuits := []; msg_connection_variables := Some [wv 1 [x03]];
         msg_private_variables := None; msg_constraints := [] |} (start Proving))
      [wv 1 [x03]] eq_refl eq_refl) as (s' & E & C).
  exists s'. split; [exact E|]. rewrite C. reflexivity.
Defined.

(** With both variable sections present, the driver succeeds exactly when
    every term of every constraint names 0, a public or a private id.
    Then it appends the public inputs (values decoded from the message,
    recorded only when proving), the private variables, and one
    constraint per constraint of the message; otherwise it panics after
    all variables were allocated. *)
Theorem generate_constraints_outcome `{PF : PrimeField}
    (messages : Messages) (pubs privs : list WireVariable) (s : state) :
  msg_connection_variables messages = Some pubs ->
  msg_private_variables messages = Some privs ->
  let mode := cs_mode_of (st_cs s) in
  let inputs' := cs_inputs (st_cs s) ++
        map (fun v => recorded mode (le_to_fr (var_value v))) pubs in
  let aux' := cs_aux (st_cs s) ++
        map (fun v => recorded mode (le_to_fr (var_value v))) privs in
  (Forall (constraint_ids (driver_declared pubs privs)) (msg_constraints messages) ->
   exists ls s', generate_constraints messages s = (Ret tt, s') /\
     st_cs s' = mkCS mode inputs' aux' (cs_constraints (st_cs s) ++ ls) /\
     length ls = length (msg_constraints messages)) /\
  (~ Forall (constraint_ids (driver_declared pubs privs)) (msg_constraints messages) ->
   fst (generate_constraints messages s) = Panic /\
   cs_inputs (st_cs (snd (generate_constraints messages s))) = inputs' /\
   cs_aux (st_cs (snd (generate_constraints messages s))) = aux').
Proof.
  intros Hp Hq mode inputs' aux'.
  destruct (bind_declared_run messages pubs privs s Hp Hq) as (t & s1 & E & C & B).
  assert (Hiff : forall c, all_bound t c <-> constraint_ids (driver_declared pubs privs) c).
  { intros c. unfold all_bound, constraint_ids. apply Forall_iff. intros tm. apply B. }
  unfold generate_constraints. rewrite (mbind_ret_eq _ _ _ _ _ E).
  split.
  - intros Hall.
    assert (Hb : Forall (all_bound t) (msg_constraints messages)).
    { eapply Forall_impl; [exact Hall|]. intros c Hc. apply Hiff. exact Hc. }
    destruct (enforce_all_ok t _ s1 Hb) as (ls & s2 & E2 & C2 & T2).
    rewrite (mbind_ret_eq _ _ _ _ _ E2). exists ls, s2. split; [reflexivity|].
    split; [rewrite C2, C; reflexivity|].
    symmetry. exact (Forall2_length _ _ _ T2).
  - intros Hnot.
    assert (Hex : Exists (fun c => ~ all_bound t c) (msg_constraints messages)).
    { apply not_Forall_Exists; [intros c; unfold all_bound; apply _|].
      intros Hb. apply Hnot. eapply Forall_impl; [exact Hb|]. intros c Hc. apply Hiff. exact Hc. }
    assert (Hp2 : fst (enforce_all t (msg_constraints messages) s1) = Panic).
    { unfold enforce_all. apply mfold_panic.
      - intros c a s0 e. apply enforce_not_fail.
      - eapply Exists_impl; [exact Hex|]. intros c Hc a s0.
        exact (proj1 (proj2 (enforce_spec t c s0) Hc)). }
    pose proof (enforce_all_same_vars t (msg_constraints messages) s1) as (_ & Hi & Ha).
    unfold mbind. destruct (enforce_all t (msg_constraints messages) s1) as [o s2].
    simpl in Hp2, Hi, Ha. subst o. simpl.
    split; [reflexivity|]. rewrite Hi, Ha, C. split; reflexivity.
Qed.

Lemma generate_constraints_outcome_witness :
  exists ls s', generate_constraints sample_messages (start Proving) = (Ret tt, s') /\
    st_cs s' = mkCS Proving ([Some 1] ++ [Some 3; Some 5]) ([] ++ []) ([] ++ ls) /\
    length ls = 1%nat.
Proof.
  destruct (generate_constraints_outcome sample_messages [wv 1 [x03]; wv 2 [x05]] []
              (start Proving) eq_refl eq_refl) as [HS _].
  apply HS.
  repeat constructor; unfold driver_declared; simpl;
    first [left; reflexivity | right; left; apply elem_of_cons; left; reflexivity].
Defined.

(* ------------------------------------------------------------------ *)
(** ** What a gadget call adds to the caller's system *)

Section CallEffects.
Context `{PF : PrimeField}.

Lemma log_keeps_mode_inputs ev : preserves (keeps mode_inputs) (log ev).
Proof. intros s. reflexivity. Qed.

Lemma cs_alloc_keeps_mode_inputs v : preserves (keeps mode_inputs) (cs_alloc v).
Proof. intros s. reflexivity. Qed.

Lemma enforce_all_keeps_mode_inputs vars cs :
  preserves (keeps mode_inputs) (enforce_all vars cs).
Proof.
  intros s. destruct (enforce_all_same_vars vars cs s) as (Hm & Hi & _).
  unfold keeps, mode_inputs. rewrite Hm, Hi. reflexivity.
Qed.

#[local] Hint Resolve log_keeps_mode_inputs cs_alloc_keeps_mode_inputs
  enforce_all_keeps_mode_inputs : pres.

Lemma call_gadget_keeps (circuit_write : CircuitOwned -> list byte)
    (inputs : list FpGadget) (exec_fn : list byte -> Result Messages string) :
  preserves (keeps mode_inputs) (call_gadget circuit_write inputs exec_fn).
Proof.
  unfold call_gadget, splice, seed_table, seed_inputs, alloc_outputs, alloc_privates,
    fp_alloc.
  pres_tac.
Qed.

Lemma outputs_values (outs : list WireVariable) (t : gmap N Var)
    (acc : list FpGadget) (s : state) :
  exists t' s',
    mfold_left (fun '(t, outputs) var =>
        let* num := fp_alloc (le_to_fr (var_value var)) in
        let* t := tbl_insert t (var_id var) (fp_variable num) in
        mret (t, outputs ++ [num])) outs (t, acc) s =
      (Ret (t', acc ++ declared_outputs (cs_mode_of (st_cs s))
                                         (length (cs_aux (st_cs s))) outs), s') /\
    st_cs s' = mkCS (cs_mode_of (st_cs s)) (cs_inputs (st_cs s))
      (cs_aux (st_cs s) ++
         map (fun v => recorded (cs_mode_of (st_cs s)) (le_to_fr (var_value v))) outs)
      (cs_constraints (st_cs s)).
Proof.
  revert t acc s. induction outs as [|o os IH]; intros t acc s.
  - exists t, s. simpl. rewrite !app_nil_r. destruct s as [[] tr].
    split; reflexivity.
  - cbn [mfold_left].
    match goal with |- context [mbind ?m (mfold_left _ os) s] =>
      destruct (m s) as [r s1] eqn:Hs end.
    pose proof Hs as Hs'. cbn in Hs. injection Hs as Hr Hs1. subst r s1.
    rewrite (mbind_ret_eq _ _ _ _ _ Hs').
    match goal with |- context [mfold_left _ os (?t1, ?acc1) ?s1] =>
      destruct (IH t1 acc1 s1) as (t' & s' & E & C) end.
    exists t', s'. split.
    + rewrite E. cbn. rewrite length_app, <- app_assoc. simpl.
      rewrite Nat.add_1_r. reflexivity.
    + rewrite C. cbn. rewrite <- app_assoc. reflexivity.
Qed.

Lemma splice_run (inputs : list FpGadget) (messages : Messages)
    (outs privs : list WireVariable) (s : state) :
  msg_connection_variables messages = Some outs ->
  msg_private_variables messages = Some privs ->
  exists t s3,
    (forall k, t !! k = call_binding inputs (length (cs_aux (st_cs s))) outs privs k) /\
    st_cs s3 = mkCS (cs_mode_of (st_cs s)) (cs_inputs (st_cs s))
      (cs_aux (st_cs s) ++
         map (fun v => recorded (cs_mode_of (st_cs s)) (le_to_fr (var_value v)))
             (outs ++ privs))
      (cs_constraints (st_cs s)) /\
    forall call,
      variable_ids (connections call) = range_N 1 (1 + N.of_nat (length inputs)) ->
      splice inputs call messages s =
        mbind (enforce_all t (msg_constraints messages))
          (fun _ => mret (declared_outputs (cs_mode_of (st_cs s))
                                           (length (cs_aux (st_cs s))) outs)) s3.
Proof.
  intros Hconn Hpriv.
  destruct (seed_spec inputs s) as (t1 & s1 & E1 & C1 & H0 & Hin & Hout).
  destruct (alloc_outputs_spec outs t1 s1) as (t2 & s2 & E2 & A2 & _ & L2).
  destruct (outputs_values outs t1 [] s1) as (t2' & s2' & E2' & V2).
  change (alloc_outputs t1 (Some outs) s1 = (Ret (t2', [] ++ declared_outputs
            (cs_mode_of (st_cs s1)) (length (cs_aux (st_cs s1))) outs), s2')) in E2'.
  rewrite E2 in E2'. inversion E2'. subst t2' s2'.
  destruct (alloc_privates_spec t2 privs s2) as (t3 & s3 & E3 & _ & _ & L3).
  destruct (privates_values privs t2 s2) as (t3' & s3' & E3' & V3).
  rewrite E3 in E3'. inversion E3'. subst t3' s3'.
  exists t3, s3. split; [|split].
  - intros k. unfold call_binding. rewrite L3, V2, C1. simpl.
    rewrite length_app, length_map.
    destruct (last_decl k privs) as [i|]; [reflexivity|].
    rewrite L2, C1. destruct (last_decl k outs) as [i|]; [reflexivity|].
    destruct (decide (k = 0%N)) as [->|Hk0]; [exact H0|].
    destruct (inputs !! (N.to_nat k - 1)%nat) as [inp|] eqn:Hi.
    + simpl. rewrite <- (Hin _ _ Hi). f_equal. lia.
    + apply lookup_ge_None in Hi. simpl. apply Hout. lia.
  - rewrite V3, V2, C1. simpl. rewrite map_app, app_assoc. reflexivity.
  - intros call Hids. unfold splice. rewrite Hids.
    rewrite (mbind_ret_eq _ _ _ _ _ E1), Hconn, (mbind_ret_eq _ _ _ _ _ E2).
    cbv beta iota. rewrite Hpriv. cbn [unwrap].
    rewrite mbind_lift_ret, (mbind_ret_eq _ _ _ _ _ E3), C1. reflexivity.
Qed.

End CallEffects.

Section Failures.
Context `{PF : PrimeField}.

(** A response without an output section is spliced as one with an empty
    output section ([if let Some(output_vars)], line 107). *)
Lemma splice_conn_default (inputs : list FpGadget) (call : CircuitOwned)
    (messages : Messages) (s : state) :
  splice inputs call messages s =
  splice inputs call
    {| msg_circuits := msg_circuits messages;
       msg_connection_variables := Some (default [] (msg_connection_variables messages));
       msg_private_variables := msg_private_variables messages;
       msg_constraints := msg_constraints messages |} s.
Proof. destruct messages as [? [o|] ? ?]; reflexivity. Qed.

(** The first element of a list that fails a decidable test. *)
Lemma first_failure {A} (P : A -> Prop) `{Hdec : forall x, Decision (P x)} (l : list A) :
  Exists (fun x => ~ P x) l ->
  exists pre x post, l = pre ++ x :: post /\ Forall P pre /\ ~ P x.
Proof.
  induction l as [|y l IH]; intros H; [inversion H|].
  destruct (decide (P y)) as [Hy|Hy].
  - apply Exists_cons in H. destruct H as [Hn|Hex]; [contradiction|].
    destruct (IH Hex) as (pre & x & post & -> & Hp & Hx).
    exists (y :: pre), x, post. split; [reflexivity|].
    split; [constructor; assumption | exact Hx].
  - exists [], y, l. split; [reflexivity|]. split; [constructor | exact Hy].
Qed.

(** The ids a gadget call binds are exactly the declared ones. *)
Lemma call_binding_declared (inputs : list FpGadget) (n : nat)
    (outs privs : list WireVariable) (k : N) :
  is_Some (call_binding inputs n outs privs k) <->
  declared_id (length inputs) outs privs k.
Proof.
  unfold call_binding, declared_id.
  destruct (last_decl k privs) as [i|] eqn:Hp.
  { split; [intros _; right; right; right; eapply last_decl_Some; exact Hp | eauto]. }
  apply last_decl_None in Hp.
  destruct (last_decl k outs) as [i|] eqn:Ho.
  { split; [intros _; right; right; left; eapply last_decl_Some; exact Ho | eauto]. }
  apply last_decl_None in Ho.
  destruct (decide (k = 0%N)) as [->|Hk0].
  { split; [intros _; left; reflexivity | eauto]. }
  rewrite fmap_is_Some, lookup_lt_is_Some. split.
  - intros Hl. right. left. lia.
  - intros [H|[H|[H|H]]]; [contradiction | lia | contradiction | contradiction].
Qed.

Lemma all_bound_declared (t : gmap N Var) (inputs : list FpGadget) (n : nat)
    (outs privs : list WireVariable) (c : Constraint) :
  (forall k, t !! k = call_binding inputs n outs privs k) ->
  all_bound t c <-> constraint_ids (declared_id (length inputs) outs privs) c.
Proof.
  intros L. unfold all_bound, constraint_ids. apply Forall_iff. intros tm.
  rewrite L. apply call_binding_declared.
Qed.

End Failures.

(** C1 (amended): a gadget call is not atomic. When the external call
    fails, the call stops with [Unsatisfiable] before anything is bound,
    allocated or enforced, and the state is the one it started from. But a
    response without a private-variable section panics after the declared
    outputs (none if the response has no output section) were allocated
    in the caller's constraint system; and when a constraint of the
    response names an id that is neither 0, a reserved input id, an output
    nor a private variable, the call panics at the first such constraint,
    after all outputs and private variables were allocated and the
    constraints before it were added to the caller's system. *)
Theorem call_gadget_failures `{PF : PrimeField}
    (circuit_write : CircuitOwned -> list byte) (inputs : list FpGadget)
    (exec_fn : list byte -> Result Messages string) (call : CircuitOwned) (s : state) :
  build_call inputs = Ret call ->
  (forall e, exec_fn (circuit_write call) = Err e ->
     call_gadget circuit_write inputs exec_fn s = (Fail Unsatisfiable, s)) /\
  (forall messages,
     exec_fn (circuit_write call) = Ok messages ->
     msg_private_variables messages = None ->
     let outs := default [] (msg_connection_variables messages) in
     fst (call_gadget circuit_write inputs exec_fn s) = Panic /\
     st_cs (snd (call_gadget circuit_write inputs exec_fn s)) =
       mkCS (cs_mode_of (st_cs s)) (cs_inputs (st_cs s))
         (cs_aux (st_cs s) ++
            map (fun v => recorded (cs_mode_of (st_cs s)) (le_to_fr (var_value v))) outs)
         (cs_constraints (st_cs s))) /\
  (forall messages privs,
     exec_fn (circuit_write call) = Ok messages ->
     msg_private_variables messages = Some privs ->
     let outs := default [] (msg_connection_variables messages) in
     Exists (fun c => ~ constraint_ids (declared_id (length inputs) outs privs) c)
            (msg_constraints messages) ->
     fst (call_gadget circuit_write inputs exec_fn s) = Panic /\
     exists pre c post t ls,
       msg_constraints messages = pre ++ c :: post /\
       Forall (constraint_ids (declared_id (length inputs) outs privs)) pre /\
       ~ constraint_ids (declared_id (length inputs) outs privs) c /\
       (forall k, t !! k = call_binding inputs (length (cs_aux (st_cs s))) outs privs k) /\
       st_cs (snd (call_gadget circuit_write inputs exec_fn s)) =
         mkCS (cs_mode_of (st_cs s)) (cs_inputs (st_cs s))
           (cs_aux (st_cs s) ++
              map (fun v => recorded (cs_mode_of (st_cs s)) (le_to_fr (var_value v)))
                  (outs ++ privs))
           (cs_constraints (st_cs s) ++ ls) /\
       Forall2 (constraint_translates t) pre ls).
Proof.
  intros Hb. destruct (build_call_fields inputs call Hb) as [Hids _].
  assert (Hc : forall messages, exec_fn (circuit_write call) = Ok messages ->
            call_gadget circuit_write inputs exec_fn s = splice inputs call messages s).
  { intros messages Hexec. unfold call_gadget.
    rewrite Hb, mbind_lift_ret, Hexec, mbind_lift_ret. reflexivity. }
  split; [|split].
  - intros e Hexec. unfold call_gadget. rewrite Hb, mbind_lift_ret, Hexec. reflexivity.
  - intros messages Hexec Hpriv outs.
    rewrite (Hc messages Hexec), splice_conn_default.
    unfold splice. rewrite Hids.
    destruct (seed_spec inputs s) as (t1 & s1 & E1 & C1 & _).
    destruct (outputs_values outs t1 [] s1) as (t2 & s2 & E2 & V2).
    change (alloc_outputs t1 (Some outs) s1 = (Ret (t2, [] ++ declared_outputs
              (cs_mode_of (st_cs s1)) (length (cs_aux (st_cs s1))) outs), s2)) in E2.
    rewrite (mbind_ret_eq _ _ _ _ _ E1). cbn [msg_connection_variables].
    rewrite (mbind_ret_eq _ _ _ _ _ E2).
    cbv beta iota. cbn [msg_private_variables]. rewrite Hpriv. cbn.
    split; [reflexivity|]. rewrite V2, C1. reflexivity.
  - intros messages privs Hexec Hpriv outs Hex.
    rewrite (Hc messages Hexec), splice_conn_default.
    match goal with |- context [splice inputs call ?m' s] =>
      destruct (splice_run inputs m' outs privs s eq_refl Hpriv) as (t & s3 & L & C3 & Hsp);
      rewrite (Hsp call Hids) end.
    cbn [msg_constraints].
    assert (Hd : forall c, Decision (constraint_ids (declared_id (length inputs) outs privs) c)).
    { intros c. unfold constraint_ids, declared_id. apply _. }
    destruct (first_failure _ _ Hex) as (pre & c & post & Hl & Hpre & Hc0).
    destruct (enforce_all_prefix t pre post c s3) as [P (ls & C & T)].
    { eapply Forall_impl; [exact Hpre|]. intros c' Hc'.
      apply (all_bound_declared t inputs _ outs privs c' L). exact Hc'. }
    { intros Hab. apply Hc0. apply (all_bound_declared t inputs _ outs privs c L). exact Hab. }
    rewrite <- Hl in P, C.
    unfold mbind. destruct (enforce_all t (msg_constraints messages) s3) as [o s4].
    simpl in P, C. subst o. split; [reflexivity|].
    exists pre, c, post, t, ls. split; [exact Hl|]. split; [exact Hpre|].
    split; [exact Hc0|]. split; [exact L|]. split; [|exact T].
    simpl. rewrite C, C3. reflexivity.
Qed.

(** A refused external call leaves the state as it was; a response
    without private variables panics after its output was allocated; a
    response without outputs whose second constraint names an undeclared
    id panics with its private variable allocated and its first
    constraint added. *)
Lemma call_gadget_failures_witness :
  call_gadget (PF := bls12_381_fr) write_nothing two_inputs exec_refused (start Proving) =
    (Fail Unsatisfiable, start Proving) /\
  (fst (call_gadget (PF := bls12_381_fr) write_nothing [] exec_no_private (start Proving))
     = Panic /\
   st_cs (snd (call_gadget (PF := bls12_381_fr) write_nothing [] exec_no_private
                 (start Proving))) =
     mkCS Proving [Some 1] ([] ++ map (fun v => recorded Proving (le_to_fr (var_value v)))
                                      [wv 1 [x05]]) []) /\
  (fst (call_gadget (PF := bls12_381_fr) write_nothing [] exec_late_undeclared
          (start Proving)) = Panic /\
   exists pre c post t ls,
     msg_constraints late_undeclared_response = pre ++ c :: post /\
     Forall (constraint_ids (declared_id 0 [] [wv 2 [x05]])) pre /\
     ~ constraint_ids (declared_id 0 [] [wv 2 [x05]]) c /\
     (forall k, t !! k = call_binding [] 0 [] [wv 2 [x05]] k) /\
     st_cs (snd (call_gadget (PF := bls12_381_fr) write_nothing [] exec_late_undeclared
                   (start Proving))) =
       mkCS Proving [Some 1]
         ([] ++ map (fun v => recorded Proving (le_to_fr (var_value v))) ([] ++ [wv 2 [x05]]))
         ([] ++ ls) /\
     Forall2 (constraint_translates t) pre ls).
Proof.
  destruct (call_gadget_failures (PF := bls12_381_fr) write_nothing two_inputs
              exec_refused two_call (start Proving) eq_refl) as [HA _].
  destruct (call_gadget_failures (PF := bls12_381_fr) write_nothing [] exec_no_private
              no_input_call (start Proving) eq_refl) as (_ & HB & _).
  destruct (call_gadget_failures (PF := bls12_381_fr) write_nothing [] exec_late_undeclared
              no_input_call (start Proving) eq_refl) as (_ & _ & HC).
  split; [exact (HA _ eq_refl)|]. split; [exact (HB no_private_response eq_refl eq_refl)|].
  apply (HC late_undeclared_response [wv 2 [x05]] eq_refl eq_refl).
  apply Exists_cons. right. apply Exists_cons. left. intros HF.
  apply Forall_inv in HF. unfold declared_id in HF. simpl in HF.
  destruct HF as [H|[H|[H|H]]]; [discriminate | lia | |].
  - apply not_elem_of_nil in H. exact H.
  - apply elem_of_cons in H. destruct H as [H|H]; [discriminate|].
    apply not_elem_of_nil in H. exact H.
Defined.

(** A gadget call never allocates a public input and never changes the
    mode of the caller's system, whatever its outcome. *)
Theorem call_gadget_no_public_inputs `{PF : PrimeField}
    (circuit_write : CircuitOwned -> list byte) (inputs : list FpGadget)
    (exec_fn : list byte -> Result Messages string) (s : state) :
  cs_mode_of (st_cs (snd (call_gadget circuit_write inputs exec_fn s))) =
    cs_mode_of (st_cs s) /\
  cs_inputs (st_cs (snd (call_gadget circuit_write inputs exec_fn s))) =
    cs_inputs (st_cs s).
Proof.
  pose proof (call_gadget_keeps circuit_write inputs exec_fn s) as H.
  unfold keeps, mode_inputs in H. injection H as Hm Hi. split; assumption.
Qed.



(* ------------------------------------------------------------------ *)
(** ** The orchestrator's files *)


Section BackendFacts.
Context {Params Proof : Type}.
Context (generate_random_parameters : Messages -> Result Params SynthesisError).
Context (create_random_proof : Messages -> Params -> Result Proof SynthesisError).
Context (params_write : Params -> list byte).
Context (params_read : list byte -> option Params).
Context (proof_write : Proof -> list byte).
Context (write_env : FileSystem -> string -> list byte -> write_outcome).

Lemma create_and_write_other (path : string) (bytes : list byte) (fs : FileSystem)
    (p : string) :
  p <> path -> snd (create_and_write write_env path bytes fs) !! p = fs !! p.
Proof.
  intros Hp. unfold create_and_write.
  destruct (write_env fs path bytes); simpl;
    [reflexivity | apply lookup_insert_ne | apply lookup_insert_ne]; congruence.
Qed.

Lemma zkif_backend_other_paths (osrng_new_ok : bool) (messages : Messages)
    (out_dir : string) (fs : FileSystem) (p : string) :
  p <> path_join out_dir "key" -> p <> path_join out_dir "proof" ->
  snd (zkif_backend generate_random_parameters create_random_proof params_write
         params_read proof_write write_env osrng_new_ok messages out_dir fs) !! p = fs !! p.
Proof.
  intros Hk Hp. unfold zkif_backend.
  destruct (last_circuit messages) as [hdr|]; [|reflexivity].
  destruct osrng_new_ok; simpl; [|reflexivity].
  set (fs1 := if hdr_r1cs_generation hdr
              then setup_step generate_random_parameters params_write write_env messages
                     (path_join out_dir "key") fs
              else (Ok tt, fs)).
  assert (H1 : snd fs1 !! p = fs !! p).
  { unfold fs1. destruct (hdr_r1cs_generation hdr); [|reflexivity].
    unfold setup_step. destruct (generate_random_parameters messages); simpl;
      [apply create_and_write_other; exact Hk | reflexivity]. }
  destruct fs1 as [[u|e] fs2]; simpl in H1 |- *; [|exact H1].
  destruct (hdr_witness_generation hdr); [|exact H1].
  unfold prove_step.
  destruct (fs2 !! path_join out_dir "key") as [kb|]; [|exact H1].
  destruct (params_read kb) as [pr|]; [|exact H1].
  destruct (create_random_proof messages pr); simpl; [|exact H1].
  rewrite create_and_write_other by exact Hp. exact H1.
Qed.

End BackendFacts.

(** [zkif_backend] writes no file other than [out_dir/key] and
    [out_dir/proof]: every other path of the file system keeps its
    contents, whatever the outcome (failed writes included). *)
Theorem zkif_backend_touches_only_artifacts {Params Proof : Type}
    (generate_random_parameters : Messages -> Result Params SynthesisError)
    (create_random_proof : Messages -> Params -> Result Proof SynthesisError)
    (params_write : Params -> list byte) (params_read : list byte -> option Params)
    (proof_write : Proof -> list byte)
    (write_env : FileSystem -> string -> list byte -> write_outcome) (osrng_new_ok : bool)
    (messages : Messages) (out_dir : string) (fs : FileSystem) (p : string) :
  p <> path_join out_dir "key" -> p <> path_join out_dir "proof" ->
  snd (zkif_backend generate_random_parameters create_random_proof params_write
         params_read proof_write write_env osrng_new_ok messages out_dir fs) !! p = fs !! p.
Proof. apply zkif_backend_other_paths. Qed.

Lemma zkif_backend_touches_only_artifacts_witness :
  ("local/r1cs.zkif" <> path_join "local" "key" /\
   "local/r1cs.zkif" <> path_join "local" "proof") /\
  snd (zkif_backend (Params:=unit) (Proof:=unit) (fun _ => Ok tt) (fun _ _ => Ok tt)
         (fun _ => [x01]) (fun _ => Some tt) (fun _ => [x02])
         (fun _ _ _ => WriteFailed 1) true
         both_messages "local" (<["local/r1cs.zkif" := [x07]]> ∅))
    !! "local/r1cs.zkif" = Some [x07].
Proof.
  assert (H : "local/r1cs.zkif" <> path_join "local" "key" /\
              "local/r1cs.zkif" <> path_join "local" "proof")
    by (split; discriminate).
  split; [exact H|].
  rewrite (zkif_backend_touches_only_artifacts (Params:=unit) (Proof:=unit)
             (fun _ => Ok tt) (fun _ _ => Ok tt) (fun _ => [x01]) (fun _ => Some tt)
             (fun _ => [x02]) (fun _ _ _ => WriteFailed 1) true both_messages "local"
             _ _ (proj1 H) (proj2 H)).
  apply lookup_insert_eq.
Defined.

(** The flow of the repository's test: when the key file can be written, a
    key-generation run ([r1cs_generation] only) stores the key under
    [out_dir/key]; when the proof file can be written, a later proving run
    ([witness_generation] only) on the same directory reads that key back
    and stores the proof under [out_dir/proof]. *)
Theorem zkif_backend_setup_then_prove {Params Proof : Type}
    (generate_random_parameters : Messages -> Result Params SynthesisError)
    (create_random_proof : Messages -> Params -> Result Proof SynthesisError)
    (params_write : Params -> list byte) (params_read : list byte -> option Params)
    (proof_write : Proof -> list byte)
    (write_env : FileSystem -> string -> list byte -> write_outcome)
    (setup_msgs prove_msgs : Messages) (out_dir : string) (fs : FileSystem)
    (params : Params) (proof : Proof) :
  last_circuit setup_msgs =
    Some {| hdr_r1cs_generation := true; hdr_witness_generation := false |} ->
  last_circuit prove_msgs =
    Some {| hdr_r1cs_generation := false; hdr_witness_generation := true |} ->
  generate_random_parameters setup_msgs = Ok params ->
  write_env fs (path_join out_dir "key") (params_write params) = Written ->
  params_read (params_write params) = Some params ->
  create_random_proof prove_msgs params = Ok proof ->
  write_env (<[path_join out_dir "key" := params_write params]> fs)
    (path_join out_dir "proof") (proof_write proof) = Written ->
  zkif_backend generate_random_parameters create_random_proof params_write
    params_read proof_write write_env true setup_msgs out_dir fs =
    (Ok tt, <[path_join out_dir "key" := params_write params]> fs) /\
  zkif_backend generate_random_parameters create_random_proof params_write
    params_read proof_write write_env true prove_msgs out_dir
    (<[path_join out_dir "key" := params_write params]> fs) =
    (Ok tt, <[path_join out_dir "proof" := proof_write proof]>
              (<[path_join out_dir "key" := params_write params]> fs)).
Proof.
  intros Hs Hp Hg Hw1 Hr Hc Hw2. split.
  - unfold zkif_backend. rewrite Hs. simpl. unfold setup_step, create_and_write.
    rewrite Hg, Hw1. reflexivity.
  - unfold zkif_backend. rewrite Hp. simpl. unfold prove_step, create_and_write.
    rewrite lookup_insert_eq, Hr, Hc, Hw2. reflexivity.
Qed.

Lemma zkif_backend_setup_then_prove_witness :
  zkif_backend (Params:=unit) (Proof:=unit) (fun _ => Ok tt) (fun _ _ => Ok tt)
    (fun _ => [x01]) (fun _ => Some tt) (fun _ => [x02]) (fun _ _ _ => Written) true
    setup_messages "local" ∅ =
    (Ok tt, <["local/key" := [x01]]> ∅) /\
  zkif_backend (Params:=unit) (Proof:=unit) (fun _ => Ok tt) (fun _ _ => Ok tt)
    (fun _ => [x01]) (fun _ => Some tt) (fun _ => [x02]) (fun _ _ _ => Written) true
    sample_messages "local" (<["local/key" := [x01]]> ∅) =
    (Ok tt, <["local/proof" := [x02]]> (<["local/key" := [x01]]> ∅)).
Proof.
  exact (zkif_backend_setup_then_prove (Params:=unit) (Proof:=unit) (fun _ => Ok tt)
           (fun _ _ => Ok tt) (fun _ => [x01]) (fun _ => Some tt) (fun _ => [x02])
           (fun _ _ _ => Written) setup_messages sample_messages "local" ∅ tt tt
           eq_refl eq_refl eq_refl eq_refl eq_refl eq_refl eq_refl).
Defined.

(** A run with both flags set is not atomic: each failure returns its
    error and keeps what the earlier steps wrote. A failed key generation
    writes nothing; a key file that cannot be created is not written; a
    write of the key that fails after [n] bytes leaves those [n] bytes in
    the key file and no proof is attempted; and a proof that fails after
    the key was written and read back leaves the key file in place. *)
Theorem zkif_backend_full_run {Params Proof : Type}
    (generate_random_parameters : Messages -> Result Params SynthesisError)
    (create_random_proof : Messages -> Params -> Result Proof SynthesisError)
    (params_write : Params -> list byte) (params_read : list byte -> option Params)
    (proof_write : Proof -> list byte)
    (write_env : FileSystem -> string -> list byte -> write_outcome)
    (messages : Messages) (out_dir : string) (fs : FileSystem) :
  last_circuit messages =
    Some {| hdr_r1cs_generation := true; hdr_witness_generation := true |} ->
  let run := zkif_backend generate_random_parameters create_random_proof params_write
               params_read proof_write write_env true messages out_dir fs in
  let key_path := path_join out_dir "key" in
  (forall e, generate_random_parameters messages = Err e -> run = (Err e, fs)) /\
  (forall params, generate_random_parameters messages = Ok params ->
     write_env fs key_path (params_write params) = CreateFailed ->
     run = (Err IoError, fs)) /\
  (forall params n, generate_random_parameters messages = Ok params ->
     write_env fs key_path (params_write params) = WriteFailed n ->
     run = (Err IoError, <[key_path := take n (params_write params)]> fs)) /\
  (forall params e, generate_random_parameters messages = Ok params ->
     write_env fs key_path (params_write params) = Written ->
     params_read (params_write params) = Some params ->
     create_random_proof messages params = Err e ->
     run = (Err e, <[key_path := params_write params]> fs)).
Proof.
  intros Hl run key_path. unfold run, key_path, zkif_backend. rewrite Hl. simpl.
  unfold setup_step, prove_step, create_and_write.
  split; [|split; [|split]].
  - intros e Hg. rewrite Hg. reflexivity.
  - intros params Hg Hw. rewrite Hg, Hw. reflexivity.
  - intros params n Hg Hw. rewrite Hg, Hw. reflexivity.
  - intros params e Hg Hw Hr Hc. rewrite Hg, Hw. simpl.
    rewrite lookup_insert_eq, Hr, Hc. reflexivity.
Qed.

Lemma zkif_backend_full_run_witness :
  zkif_backend (Params:=unit) (Proof:=unit) (fun _ => Err Unsatisfiable) (fun _ _ => Ok tt)
    (fun _ => [x01; x02]) (fun _ => Some tt) (fun _ => [x03]) (fun _ _ _ => Written) true
    both_messages "local" ∅ = (Err Unsatisfiable, ∅) /\
  zkif_backend (Params:=unit) (Proof:=unit) (fun _ => Ok tt) (fun _ _ => Ok tt)
    (fun _ => [x01; x02]) (fun _ => Some tt) (fun _ => [x03]) (fun _ _ _ => CreateFailed) true
    both_messages "local" ∅ = (Err IoError, ∅) /\
  zkif_backend (Params:=unit) (Proof:=unit) (fun _ => Ok tt) (fun _ _ => Ok tt)
    (fun _ => [x01; x02]) (fun _ => Some tt) (fun _ => [x03]) (fun _ _ _ => WriteFailed 1) true
    both_messages "local" ∅ = (Err IoError, <["local/key" := [x01]]> ∅) /\
  zkif_backend (Params:=unit) (Proof:=unit) (fun _ => Ok tt) (fun _ _ => Err Unsatisfiable)
    (fun _ => [x01; x02]) (fun _ => Some tt) (fun _ => [x03]) (fun _ _ _ => Written) true
    both_messages "local" ∅ = (Err Unsatisfiable, <["local/key" := [x01; x02]]> ∅).
Proof.
  split; [|split; [|split]].
  - exact (proj1 (zkif_backend_full_run (Params:=unit) (Proof:=unit)
             (fun _ => Err Unsatisfiable) (fun _ _ => Ok tt) (fun _ => [x01; x02])
             (fun _ => Some tt) (fun _ => [x03]) (fun _ _ _ => Written)
             both_messages "local" ∅ eq_refl) Unsatisfiable eq_refl).
  - exact (proj1 (proj2 (zkif_backend_full_run (Params:=unit) (Proof:=unit)
             (fun _ => Ok tt) (fun _ _ => Ok tt) (fun _ => [x01; x02])
             (fun _ => Some tt) (fun _ => [x03]) (fun _ _ _ => CreateFailed)
             both_messages "local" ∅ eq_refl)) tt eq_refl eq_refl).
  - exact (proj1 (proj2 (proj2 (zkif_backend_full_run (Params:=unit) (Proof:=unit)
             (fun _ => Ok tt) (fun _ _ => Ok tt) (fun _ => [x01; x02])
             (fun _ => Some tt) (fun _ => [x03]) (fun _ _ _ => WriteFailed 1)
             both_messages "local" ∅ eq_refl))) tt 1%nat eq_refl eq_refl).
  - exact (proj2 (proj2 (proj2 (zkif_backend_full_run (Params:=unit) (Proof:=unit)
             (fun _ => Ok tt) (fun _ _ => Err Unsatisfiable) (fun _ => [x01; x02])
             (fun _ => Some tt) (fun _ => [x03]) (fun _ _ _ => Written)
             both_messages "local" ∅ eq_refl))) tt Unsatisfiable eq_refl eq_refl eq_refl
             eq_refl).
Defined.
